(** * Audarma: view-level translation cache and batch gap filling

    A shallow embedding of the two drivers of the repository,

    - [core/ViewTranslationProvider.tsx] (the React view coordinator), and
    - [cli/translate.ts] (the batch gap-filling engine),

    together with the adapter interfaces of [types/index.ts] they are
    written against, and the properties of the specification that concern
    them.

    Conventions of the embedding.

    - A JavaScript string is a Rocq [string], read as the sequence of its
      UTF-8 bytes; a string with a lone surrogate has no counterpart.
      Template literals are [++], [===] on strings is [=],
      [s.substring(0, n)] is [substring 0 n s] and [a.join(sep)] is
      [String.concat sep a].  Strings are ordered as JavaScript orders them,
      by their UTF-16 code units.
    - A JavaScript number is an integer: a [nat] where the code counts or
      measures a length, a [Z] where the value comes from the caller
      ([config.batchSize]) or is computed from such a value.  Numbers with
      a fractional part are not represented; a division by zero gives the
      [NaN] or [Infinity] that JavaScript gives.
    - A JavaScript value that the code indexes out of an array or reads from
      an object, and that may therefore be [undefined], is an [option];
      [None] is [undefined].
    - A plain object or [Map] used as a dictionary is a [gmap].
    - An [async] function is a state-passing computation over the state of
      the outside world; a rejected promise or a [throw] is the [Throw]
      result.  A function with a loop that need not end is given a number
      of turns, and has no result when the turns are spent before the loop
      has ended. *)

From Stdlib Require Import NArith ZArith Ascii String.
From stdpp Require Import gmap strings list sorting.

Local Open Scope string_scope.
Local Open Scope list_scope.

(** ** SHA-256

    Both drivers digest text with SHA-256 and print the digest in lower-case
    hexadecimal: [crypto.SHA256(s).toString()] of crypto-js in the
    coordinator, [crypto.createHash('sha256').update(s).digest('hex')] of
    Node in the batch engine.  Both hash the UTF-8 bytes of [s]. *)
Module SHA256.

Local Open Scope N_scope.

Definition add32 (x y : N) : N := (x + y) mod 2 ^ 32.
Definition shl32 (x n : N) : N := (N.shiftl x n) mod 2 ^ 32.
Definition rotr (n x : N) : N := N.lor (N.shiftr x n) (shl32 x (32 - n)).
Definition not32 (x : N) : N := N.lxor x 0xffffffff.

Definition Ch (x y z : N) : N := N.lxor (N.land x y) (N.land (not32 x) z).
Definition Maj (x y z : N) : N :=
  N.lxor (N.lxor (N.land x y) (N.land x z)) (N.land y z).
Definition bigSigma0 (x : N) : N := N.lxor (N.lxor (rotr 2 x) (rotr 13 x)) (rotr 22 x).
Definition bigSigma1 (x : N) : N := N.lxor (N.lxor (rotr 6 x) (rotr 11 x)) (rotr 25 x).
Definition smallSigma0 (x : N) : N := N.lxor (N.lxor (rotr 7 x) (rotr 18 x)) (N.shiftr x 3).
Definition smallSigma1 (x : N) : N := N.lxor (N.lxor (rotr 17 x) (rotr 19 x)) (N.shiftr x 10).

(** The constants of the algorithm are taken from the first primes: the
    round constants are the first 32 bits of the fractional parts of the
    cube roots of the first 64 primes, the initial chaining value those of
    the square roots of the first 8. *)
Definition is_prime (n : N) : bool :=
  forallb (fun d => negb (n mod d =? 0)) (map N.of_nat (seq 2 (N.to_nat n - 2))).

Definition first_primes : list N :=
  List.filter is_prime (map N.of_nat (seq 2 310)).

(** The integer cube root of [x], found bit by bit from bit [bits - 1] down. *)
Fixpoint cube_root (bits : nat) (x root : N) : N :=
  match bits with
  | O => root
  | S bits' =>
      let candidate := root + 2 ^ N.of_nat bits' in
      if candidate * candidate * candidate <=? x
      then cube_root bits' x candidate
      else cube_root bits' x root
  end.

Definition K : list N :=
  Eval vm_compute in
    map (fun p => cube_root 36 (p * 2 ^ 96) 0 mod 2 ^ 32) first_primes.

(** The eight working variables, and the chaining value. *)
Record regs := Regs { ra : N; rb : N; rc : N; rd : N; re : N; rf : N; rg : N; rh : N }.

Definition H0 : regs :=
  Eval vm_compute in
    match map (fun p => N.sqrt (p * 2 ^ 64) mod 2 ^ 32) (take 8 first_primes) with
    | [a; b; c; d; e; f; g; h] => Regs a b c d e f g h
    | _ => Regs 0 0 0 0 0 0 0 0
    end.

(** Padding: a 1 bit, zero bits up to 448 modulo 512, and the bit length
    as a 64-bit big-endian number. *)
Definition be_bytes (k : nat) (x : N) : list N :=
  map (fun i => (N.shiftr x (8 * N.of_nat i)) mod 256) (reverse (seq 0 k)).

Definition pad (msg : list N) : list N :=
  let len := length msg in
  let zeros := ((64 - ((len + 9) mod 64)) mod 64)%nat in
  msg ++ [0x80] ++ replicate zeros 0 ++ be_bytes 8 (8 * N.of_nat len).

Fixpoint be_words (fuel : nat) (bytes : list N) : list N :=
  match fuel, bytes with
  | S fuel', b0 :: b1 :: b2 :: b3 :: rest =>
      (N.shiftl b0 24 + N.shiftl b1 16 + N.shiftl b2 8 + b3) :: be_words fuel' rest
  | _, _ => []
  end.

(** The message schedule: sixteen words of the block, extended to 64. *)
Fixpoint extend (n : nat) (w : list N) : list N :=
  match n with
  | O => w
  | S n' =>
      let t := length w in
      let at_ k := nth (t - k) w 0 in
      extend n' (w ++ [add32 (add32 (smallSigma1 (at_ 2%nat)) (at_ 7%nat))
                             (add32 (smallSigma0 (at_ 15%nat)) (at_ 16%nat))])
  end.

Definition round (r : regs) (kw : N * N) : regs :=
  let t1 := add32 (add32 (add32 (rh r) (bigSigma1 (re r)))
                         (add32 (Ch (re r) (rf r) (rg r)) kw.1)) kw.2 in
  let t2 := add32 (bigSigma0 (ra r)) (Maj (ra r) (rb r) (rc r)) in
  Regs (add32 t1 t2) (ra r) (rb r) (rc r) (add32 (rd r) t1) (re r) (rf r) (rg r).

Definition compress (h : regs) (block : list N) : regs :=
  let r := foldl round h (zip K (extend 48 block)) in
  Regs (add32 (ra h) (ra r)) (add32 (rb h) (rb r)) (add32 (rc h) (rc r))
       (add32 (rd h) (rd r)) (add32 (re h) (re r)) (add32 (rf h) (rf r))
       (add32 (rg h) (rg r)) (add32 (rh h) (rh r)).

Fixpoint blocks (fuel : nat) (h : regs) (words : list N) : regs :=
  match fuel, words with
  | S fuel', _ :: _ => blocks fuel' (compress h (take 16 words)) (drop 16 words)
  | _, _ => h
  end.

Definition digest (msg : list N) : regs :=
  let bytes := pad msg in
  let words := be_words (length bytes) bytes in
  blocks (length words) H0 words.

(** Lower-case hexadecimal, eight digits per word. *)
Definition hex_digit (x : N) : ascii :=
  nth (N.to_nat (x mod 16)) (list_ascii_of_string "0123456789abcdef") "0"%char.

Definition hex32 (w : N) (tail : string) : string :=
  String (hex_digit (N.shiftr w 28)) (String (hex_digit (N.shiftr w 24))
 (String (hex_digit (N.shiftr w 20)) (String (hex_digit (N.shiftr w 16))
 (String (hex_digit (N.shiftr w 12)) (String (hex_digit (N.shiftr w 8))
 (String (hex_digit (N.shiftr w 4))  (String (hex_digit w) tail))))))).

Definition hex (r : regs) : string :=
  hex32 (ra r) (hex32 (rb r) (hex32 (rc r) (hex32 (rd r)
 (hex32 (re r) (hex32 (rf r) (hex32 (rg r) (hex32 (rh r) ""))))))).

Definition bytes_of_string (s : string) : list N :=
  map N_of_ascii (list_ascii_of_string s).

Definition sha256_hex (s : string) : string := hex (digest (bytes_of_string s)).

End SHA256.

Definition sha256_hex : string → string := SHA256.sha256_hex.

(** ** Data model ([types/index.ts], [types/content-sources.ts]) *)

Record TranslationItem := {
  contentType : string;
  contentId : string;
  text : string }.

Record ViewTranslationMetadata := {
  contentHash : string;
  lastTranslated : string;
  md_locale : string;
  itemCount : nat }.

(** A row as [getCachedTranslations] returns it.  The interface types
    [translated_text] as a string; the coordinator tests it for truthiness,
    so the value may be missing at run time. *)
Record CachedRow := {
  content_type : string;
  content_id : string;
  translated_text : option string;
  source_hash : string }.

(** A row as [saveTranslations] receives it.  Both drivers fill
    [translated_text] with [translations[idx]], which is [undefined] when the
    provider's array is shorter than [idx]. *)
Record SaveRow := {
  sv_content_type : string;
  sv_content_id : string;
  sv_locale : string;
  sv_original_text : string;
  sv_translated_text : option string;
  sv_source_hash : string }.

Record ContentSourceItem := {
  csi_contentType : string;
  textColumn : string }.

Record ContentSource := {
  table : string;
  idColumn : string;
  cs_items : list ContentSourceItem }.

Record DiscoveredContent := {
  dc_contentType : string;
  dc_contentId : string;
  dc_text : string;
  dc_sourceHash : string }.

Record TranslationGap := {
  gap_contentType : string;
  gap_contentId : string;
  gap_text : string;
  gap_sourceHash : string;
  missingLocales : list string }.

#[global] Instance TranslationItem_eq_dec : EqDecision TranslationItem.
Proof. solve_decision. Defined.
#[global] Instance SaveRow_eq_dec : EqDecision SaveRow.
Proof. solve_decision. Defined.

(** The outcome of awaiting a promise: a value, or the thrown error. *)
Inductive result (A : Type) : Type :=
| Ok (a : A)
| Throw (e : string).
Arguments Ok {A} a.
Arguments Throw {A} e.

Definition is_ok {A} (r : result A) : bool :=
  match r with Ok _ => true | Throw _ => false end.

(** JavaScript truthiness of a possibly missing string: [undefined] and the
    empty string are falsy. *)
Definition truthy (v : option string) : bool :=
  match v with
  | Some s => negb (String.eqb s "")
  | None => false
  end.

(** [a || b] on strings. *)
Definition js_or (v : option string) (fallback : string) : string :=
  match v with
  | Some s => if String.eqb s "" then fallback else s
  | None => fallback
  end.

(** ** Adapter interfaces ([types/index.ts])

    [Ext] is the state of everything behind the adapters: database contents,
    the provider's service, the i18n library. *)
Section Interfaces.
Context {Ext : Type}.

Record DatabaseAdapter := {
  getCachedTranslations :
    list TranslationItem → option string → Ext → result (list CachedRow) * Ext;
  saveTranslations : list SaveRow → Ext → result unit * Ext;
  getAllTranslatableContent :
    option (list ContentSource → Ext → result (list TranslationItem) * Ext) }.

Record LLMProvider := {
  translateBatch :
    list TranslationItem → string → string → Ext → result (list string) * Ext }.

Record I18nAdapter := {
  getCurrentLocale : Ext → string;
  getDefaultLocale : Ext → string;
  getSupportedLocales : Ext → list string }.
End Interfaces.
Arguments DatabaseAdapter : clear implicits.
Arguments LLMProvider : clear implicits.
Arguments I18nAdapter : clear implicits.

(** ** The world, and computations over it *)

(** A call made on an adapter. *)
Inductive Call :=
| CallGetCached (items : list TranslationItem) (targetLocale : option string)
| CallSave (rows : list SaveRow)
| CallTranslate (items : list TranslationItem) (sourceLocale targetLocale : string)
| CallDiscover (sources : list ContentSource).

(** A number as the batch engine prints it: an integer, or what a division
    by zero leaves. *)
Inductive Num :=
| Int (z : Z)
| NaN
| Infinity
| NegInfinity.

(** What an object used as a tally holds for a key: a number of
    occurrences, or, for a key that [Object.prototype] has a member for, the
    text of that member followed by so many digits ["1"]. *)
Inductive Tally :=
| Times (n : nat)
| Inherited (ones : nat).

(** The lines of [console.log] and [console.error] in [cli/translate.ts],
    one constructor for each call in the source, with the values the line
    is made of.  The elapsed time of the [Duration] line is read from the
    clock and is not represented. *)
Inductive Line :=
| LineBanner
| LineDiscovering
| LineFound (n : nat)
| LineTypeCount (type : string) (count : Tally)
| LineNoContent
| LineFindingGaps
| LineGaps (n : nat)
| LineLocaleMissing (locale : string) (count : Tally)
| LineNoGaps
| LineDryRunNotice
| LineDryRun (n : nat)
| LineDryRunLocale (locale : string) (count : nat)
| LineTranslating (locale : string)
| LineBatch (batchNumber batches : Num) (size : nat)
| LineBatchSaved (batchNumber batches : Num) (saved : nat)
| LineBatchFailed (batchNumber batches : Num) (error : string)
| LineComplete
| LineSummaryHead
| LineTotal (total : nat)
| LineDuration
| LineLocales (locales : list string)
| LineNextSteps
| LineNextDeploy
| LineNextLazy.

Record World (Ext : Type) := {
  ext : Ext;
  (** every adapter call so far, oldest first, with whether it returned *)
  calls : list (Call * bool);
  console : list Line;
  (** the browser's [localStorage], as far as the coordinator uses it; a
      value that is not the JSON of a metadata object is handled like an
      absent one and is not represented *)
  localStorage : gmap string ViewTranslationMetadata;
  (** what [new Date().toISOString()] returns *)
  now : string }.
Arguments ext {Ext} _.
Arguments calls {Ext} _.
Arguments console {Ext} _.
Arguments localStorage {Ext} _.
Arguments now {Ext} _.

Section Monad.
Context {Ext : Type}.

Definition M (A : Type) : Type := World Ext → result A * World Ext.

Definition ret {A} (a : A) : M A := λ w, (Ok a, w).
Definition throw {A} (e : string) : M A := λ w, (Throw e, w).
Definition bind {A B} (m : M A) (k : A → M B) : M B :=
  λ w, match m w with
       | (Ok a, w') => k a w'
       | (Throw e, w') => (Throw e, w')
       end.

(** [try { m } catch (error) { h error; throw error }] *)
Definition rethrowing {A} (m : M A) (h : string → M unit) : M A :=
  λ w, match m w with
       | (Ok a, w') => (Ok a, w')
       | (Throw e, w') => (Throw e, (h e w').2)
       end.

(** Awaiting an adapter method, recorded in [calls]. *)
Definition invoke {A} (c : Call) (f : Ext → result A * Ext) : M A :=
  λ w, let '(r, s') := f (ext w) in
       (r, {| ext := s'; calls := calls w ++ [(c, is_ok r)];
              console := console w; localStorage := localStorage w;
              now := now w |}).

Definition print (l : Line) : M unit :=
  λ w, (Ok (), {| ext := ext w; calls := calls w;
                  console := console w ++ [l];
                  localStorage := localStorage w; now := now w |}).

Definition setItem (k : string) (v : ViewTranslationMetadata)
    (w : World Ext) : World Ext :=
  {| ext := ext w; calls := calls w; console := console w;
     localStorage := <[k := v]> (localStorage w); now := now w |}.

(** A computation that need not end: [None] when the turns it was given
    are spent before it has ended. *)
Definition P (A : Type) : Type := World Ext → option (result A * World Ext).

Definition ended {A} (m : M A) : P A := λ w, Some (m w).
Definition spent {A} : P A := λ _, None.
Definition bindP {A B} (m : P A) (k : A → P B) : P B :=
  λ w, match m w with
       | Some (Ok a, w') => k a w'
       | Some (Throw e, w') => Some (Throw e, w')
       | None => None
       end.
End Monad.

Notation "'do' x <- m ; k" := (bind m (λ x, k))
  (at level 10, x name, m at level 100, k at level 200).
Notation "m ;; k" := (bind m (λ _, k))
  (at level 100, k at level 200, right associativity).
Notation "'await' x <- m ; k" := (bindP m (λ x, k))
  (at level 10, x name, m at level 100, k at level 200).

(** ** Content fingerprinting *)

(** A byte [10xxxxxx], and its six bits. *)
Definition continuation (c : ascii) : bool :=
  (128 <=? N_of_ascii c)%N && (N_of_ascii c <? 192)%N.

Definition low6 (c : ascii) : N := N.land (N_of_ascii c) 63.

(** The UTF-16 code units of the string whose UTF-8 bytes are [s]: one
    unit for a character of one, two or three bytes, the two surrogates for
    a character of four.  A byte that starts no character stands for
    itself. *)
Fixpoint code_units (s : string) : list N :=
  match s with
  | EmptyString => []
  | String c0 s1 =>
      let n0 := N_of_ascii c0 in
      let skip := n0 :: code_units s1 in
      if (n0 <? 128)%N then skip
      else
        match s1 with
        | String c1 s2 =>
            if (192 <=? n0)%N && (n0 <? 224)%N && continuation c1
            then (N.shiftl (N.land n0 31) 6 + low6 c1)%N :: code_units s2
            else
              match s2 with
              | String c2 s3 =>
                  if (224 <=? n0)%N && (n0 <? 240)%N
                     && continuation c1 && continuation c2
                  then (N.shiftl (N.land n0 15) 12 + N.shiftl (low6 c1) 6
                        + low6 c2)%N :: code_units s3
                  else
                    match s3 with
                    | String c3 s4 =>
                        if (240 <=? n0)%N && (n0 <? 245)%N && continuation c1
                           && continuation c2 && continuation c3
                        then
                          let point :=
                            (N.shiftl (N.land n0 7) 18 + N.shiftl (low6 c1) 12
                             + N.shiftl (low6 c2) 6 + low6 c3)%N in
                          (55296 + N.shiftr (point - 65536) 10)%N
                          :: (56320 + N.land (point - 65536) 1023)%N
                          :: code_units s4
                        else skip
                    | EmptyString => skip
                    end
              | EmptyString => skip
              end
        | EmptyString => skip
        end
  end.

Fixpoint units_compare (a b : list N) : comparison :=
  match a, b with
  | [], [] => Eq
  | [], _ :: _ => Lt
  | _ :: _, [] => Gt
  | x :: a', y :: b' =>
      match (x ?= y)%N with
      | Eq => units_compare a' b'
      | c => c
      end
  end.

Definition bytes (s : string) : list N := map N_of_ascii (list_ascii_of_string s).

(** The comparison of [Array.prototype.sort] without a comparator: strings
    compared code unit by code unit.  Two byte sequences with the same code
    units, of which at most one is the UTF-8 of a string, are compared by
    their bytes, so that the comparison is an order on every [string]. *)
Definition js_compare (a b : string) : comparison :=
  match units_compare (code_units a) (code_units b) with
  | Eq => units_compare (bytes a) (bytes b)
  | c => c
  end.

Definition str_le (a b : string) : Prop := js_compare a b ≠ Gt.

#[global] Instance str_le_dec a b : Decision (str_le a b).
Proof. unfold str_le. apply _. Defined.

Definition js_sort (l : list string) : list string := merge_sort str_le l.

(** [`${item.contentType}:${item.contentId}:${item.text}`] *)
Definition encode (item : TranslationItem) : string :=
  (contentType item ++ ":" ++ contentId item ++ ":" ++ text item)%string.

(** [items.map(...).sort().join('|')] *)
Definition contentString (items : list TranslationItem) : string :=
  String.concat "|" (js_sort (map encode items)).

(** [crypto.SHA256(contentString).toString().substring(0, 16)] *)
Definition fingerprintView (items : list TranslationItem) : string :=
  substring 0 16 (sha256_hex (contentString items)).

(** The digest saved as [source_hash] by the coordinator:
    [crypto.SHA256(item.text).toString()]. *)
Definition coordinator_source_hash (s : string) : string := sha256_hex s.

(** The digest computed by [discoverContent]:
    [crypto.createHash('sha256').update(item.text).digest('hex').substring(0, 16)]. *)
Definition batch_source_hash (s : string) : string :=
  substring 0 16 (sha256_hex s).

(** [`${contentType}:${contentId}`] *)
Definition cache_key (ct cid : string) : string := (ct ++ ":" ++ cid)%string.

(** ** The view coordinator ([core/ViewTranslationProvider.tsx]) *)

Section Coordinator.
Context {Ext : Type}.

(** [AudarConfig].  The [debug] flag only switches console output of the
    coordinator, which is not modelled. *)
Record AudarConfig := {
  database : DatabaseAdapter Ext;
  llm : LLMProvider Ext;
  i18n : I18nAdapter Ext;
  defaultLocale : option string }.

Variable config : AudarConfig.

(** The component's state: [useState<ViewTranslationCache>({})] and
    [useState(false)]. *)
Record ViewState := {
  cache : gmap string (option string);
  isTranslating : bool }.

Definition initial : ViewState := {| cache := ∅; isTranslating := false |}.

(** What one render of the component binds, and what the closures it
    creates (the effect, [getTranslation], [isItemTranslating]) see. *)
Record Render := {
  viewName : string;
  items : list TranslationItem;
  locale : string;
  r_defaultLocale : string }.

(** [const locale = config.i18n.getCurrentLocale();]
    [const defaultLocale = config.defaultLocale || config.i18n.getDefaultLocale();] *)
Definition render (name : string) (its : list TranslationItem)
    (w : World Ext) : Render :=
  {| viewName := name; items := its;
     locale := getCurrentLocale (i18n config) (ext w);
     r_defaultLocale :=
       js_or (defaultLocale config) (getDefaultLocale (i18n config) (ext w)) |}.

(** [cache[key] || fallback] behind the default-locale guard. *)
Definition getTranslation (r : Render) (st : ViewState)
    (ct cid fallback : string) : string :=
  if decide (locale r = r_defaultLocale r) then fallback
  else js_or (mjoin (cache st !! cache_key ct cid)) fallback.

(** [isTranslating && !cache[key]] behind the default-locale guard. *)
Definition isItemTranslating (r : Render) (st : ViewState)
    (ct cid : string) : bool :=
  if decide (locale r = r_defaultLocale r) then false
  else isTranslating st && negb (truthy (mjoin (cache st !! cache_key ct cid))).

(** [useViewTranslation] *)
Definition useViewTranslation (r : Render) (st : ViewState)
    (ct cid originalText : string) : string * bool :=
  (getTranslation r st ct cid originalText, isItemTranslating r st ct cid).

(** [`translation_metadata_${viewName}_${locale}`] *)
Definition metadataKey (r : Render) : string :=
  ("translation_metadata_" ++ viewName r ++ "_" ++ locale r)%string.

(** A cycle suspended at one of its [await]s.  The adapter call it waits
    for is carried out when the cycle is resumed. *)
Inductive Pending :=
| AwaitLoad (r : Render)
    (* loadFromDatabaseCache: await getCachedTranslations *)
| AwaitCached (r : Render) (hash : string)
    (* translateView: await getCachedTranslations *)
| AwaitTranslate (r : Render) (hash : string)
    (newCache : gmap string (option string))
    (uncachedItems : list TranslationItem)
    (* translateView: await llm.translateBatch *)
| AwaitSave (r : Render) (hash : string)
    (newCache : gmap string (option string))
    (uncachedItems : list TranslationItem)
    (translatedTexts : list string).
    (* translateView: await saveTranslations *)

Definition setCache (c : gmap string (option string)) (st : ViewState) :=
  {| cache := c; isTranslating := isTranslating st |}.
Definition setIsTranslating (b : bool) (st : ViewState) :=
  {| cache := cache st; isTranslating := b |}.

(** [translateView], from its call to its first [await]. *)
Definition translateView (r : Render) (st : ViewState) (w : World Ext)
    : ViewState * option Pending * World Ext :=
  let contentHash' := fingerprintView (items r) in
  match localStorage w !! metadataKey r with
  | Some metadata =>
      if decide (contentHash metadata = contentHash'
                 ∧ itemCount metadata = length (items r))
      then (st, Some (AwaitLoad r), w)
      else (setIsTranslating true st, Some (AwaitCached r contentHash'), w)
  | None => (setIsTranslating true st, Some (AwaitCached r contentHash'), w)
  end.

(** The body of the [useEffect]. *)
Definition effect (r : Render) (st : ViewState) (w : World Ext)
    : ViewState * option Pending * World Ext :=
  if decide (locale r = r_defaultLocale r ∨ length (items r) = 0)
  then (setIsTranslating false (setCache ∅ st), None, w)
  else translateView r st w.

(** [new Map(cachedResults.map(r => [key, r.translated_text]))]: a later
    entry replaces an earlier one with the same key. *)
Definition cachedMap (rows : list CachedRow) : gmap string (option string) :=
  foldl (λ m row,
           <[cache_key (content_type row) (content_id row) := translated_text row]> m)
        ∅ rows.

(** The [items.forEach] that splits the items into those served from the
    store and those to translate. *)
Definition partition_items (m : gmap string (option string))
    (its : list TranslationItem)
    : gmap string (option string) * list TranslationItem :=
  foldl (λ acc item,
           let key := cache_key (contentType item) (contentId item) in
           let cached := mjoin (m !! key) in
           if truthy cached then (<[key := cached]> acc.1, acc.2)
           else (acc.1, acc.2 ++ [item]))
        (∅, []) its.

(** [translationsToSave] *)
Definition translationsToSave (r : Render) (uncachedItems : list TranslationItem)
    (translatedTexts : list string) : list SaveRow :=
  imap (λ idx item,
          {| sv_content_type := contentType item;
             sv_content_id := contentId item;
             sv_locale := locale r;
             sv_original_text := text item;
             sv_translated_text := translatedTexts !! idx;
             sv_source_hash := coordinator_source_hash (text item) |})
       uncachedItems.

(** [uncachedItems.forEach((item, idx) => newCache[key] = translatedTexts[idx])] *)
Definition add_translated (newCache : gmap string (option string))
    (uncachedItems : list TranslationItem) (translatedTexts : list string)
    : gmap string (option string) :=
  foldl (λ c p, <[cache_key (contentType p.2) (contentId p.2) := translatedTexts !! p.1]> c)
        newCache (imap (λ idx item, (idx, item)) uncachedItems).

(** The end of the [try] block: [setCache(newCache)], the metadata
    written to [localStorage], and the [finally]. *)
Definition settle (r : Render) (hash : string)
    (newCache : gmap string (option string)) (st : ViewState) (w : World Ext)
    : ViewState * option Pending * World Ext :=
  (setIsTranslating false (setCache newCache st), None,
   setItem (metadataKey r)
     {| contentHash := hash; lastTranslated := now w;
        md_locale := locale r; itemCount := length (items r) |} w).

(** The [catch] and [finally] of [translateView]. *)
Definition failed (st : ViewState) (w : World Ext)
    : ViewState * option Pending * World Ext :=
  (setIsTranslating false st, None, w).

(** A suspended cycle continues up to its next [await] or to its end. *)
Definition resume (p : Pending) (st : ViewState) (w : World Ext)
    : ViewState * option Pending * World Ext :=
  match p with
  | AwaitLoad r =>
      match invoke (CallGetCached (items r) (Some (locale r)))
              (getCachedTranslations (database config) (items r) (Some (locale r))) w with
      | (Ok cachedResults, w') => (setCache (cachedMap cachedResults) st, None, w')
      | (Throw _, w') => translateView r st w'
      end
  | AwaitCached r hash =>
      match invoke (CallGetCached (items r) (Some (locale r)))
              (getCachedTranslations (database config) (items r) (Some (locale r))) w with
      | (Ok cachedResults, w') =>
          let '(newCache, uncachedItems) :=
            partition_items (cachedMap cachedResults) (items r) in
          if decide (0 < length uncachedItems)
          then (st, Some (AwaitTranslate r hash newCache uncachedItems), w')
          else settle r hash newCache st w'
      | (Throw _, w') => failed st w'
      end
  | AwaitTranslate r hash newCache uncachedItems =>
      match invoke (CallTranslate uncachedItems (r_defaultLocale r) (locale r))
              (translateBatch (llm config) uncachedItems (r_defaultLocale r) (locale r)) w with
      | (Ok translatedTexts, w') =>
          (st, Some (AwaitSave r hash newCache uncachedItems translatedTexts), w')
      | (Throw _, w') => failed st w'
      end
  | AwaitSave r hash newCache uncachedItems translatedTexts =>
      let rows := translationsToSave r uncachedItems translatedTexts in
      match invoke (CallSave rows) (saveTranslations (database config) rows) w with
      | (Ok _, w') =>
          settle r hash (add_translated newCache uncachedItems translatedTexts) st w'
      | (Throw _, w') => failed st w'
      end
  end.

(** A cycle run until it ends, with no render in between;
    [None] while it is still pending when [fuel] resumptions are spent. *)
Fixpoint run (fuel : nat) (x : ViewState * option Pending * World Ext)
    : option (ViewState * World Ext) :=
  match x with
  | (st, None, w) => Some (st, w)
  | (st, Some p, w) =>
      match fuel with
      | O => None
      | S fuel' => run fuel' (resume p st w)
      end
  end.

Definition sync (fuel : nat) (r : Render) (st : ViewState) (w : World Ext)
    : option (ViewState * World Ext) :=
  run fuel (effect r st w).
End Coordinator.

(** ** Arrays and numbers of JavaScript *)

(** [a.slice(start, end)] for integer arguments: a negative argument counts
    from the end of the array, and both are clamped to it. *)
Definition slice {A} (start end_ : Z) (a : list A) : list A :=
  let len := Z.of_nat (length a) in
  let k := if decide (start < 0)%Z then Z.max (len + start) 0 else Z.min start len in
  let final := if decide (end_ < 0)%Z then Z.max (len + end_) 0 else Z.min end_ len in
  take (Z.to_nat (final - k)) (drop (Z.to_nat k) a).

(** [a / 0] *)
Definition div_by_zero (a : Z) : Num :=
  if decide (a = 0)%Z then NaN
  else if decide (0 < a)%Z then Infinity else NegInfinity.

(** [Math.floor(a / b)] and [Math.ceil(a / b)] *)
Definition floor_div (a b : Z) : Num :=
  if decide (b = 0)%Z then div_by_zero a else Int (a / b).

Definition ceil_div (a b : Z) : Num :=
  if decide (b = 0)%Z then div_by_zero a else Int (- (- a / b)).

(** [n + 1] *)
Definition succ (n : Num) : Num :=
  match n with
  | Int z => Int (z + 1)
  | NaN => NaN
  | Infinity => Infinity
  | NegInfinity => NegInfinity
  end.

(** ** Objects that count

    [xs.reduce((acc, x) => { acc[k] = (acc[k] || 0) + 1; return acc }, {})]
    and the [Object.entries] of the object it returns.  An object is given
    by its own properties in the order of their creation. *)

(** The members of [Object.prototype] that are functions; the one other
    member is the accessor [__proto__]. *)
Definition object_prototype_members : list string :=
  ["constructor"; "__defineGetter__"; "__defineSetter__"; "hasOwnProperty";
   "__lookupGetter__"; "__lookupSetter__"; "isPrototypeOf";
   "propertyIsEnumerable"; "toString"; "valueOf"; "toLocaleString"].

(** [acc[k] = (acc[k] || 0) + 1] for an own property [k] of [acc]; [None]
    when [acc] has no such property. *)
Fixpoint bump_own (k : string) (own : list (string * Tally))
    : option (list (string * Tally)) :=
  match own with
  | [] => None
  | (k', v) :: rest =>
      if decide (k = k')
      then Some ((k', match v with
                      | Times n => Times (S n)
                      | Inherited ones => Inherited (S ones)
                      end) :: rest)
      else cons (k', v) <$> bump_own k rest
  end.

(** [acc[k] = (acc[k] || 0) + 1].  Where [acc] has no own property [k] the
    value read is the inherited one: [undefined] for most keys, and the
    property is created with 1; a function for a member of
    [Object.prototype], of which [+ 1] makes a string, and the property is
    created with that string; the prototype itself for [__proto__], where
    the string that [+ 1] makes is assigned through the accessor, which
    ignores it. *)
Definition tally_add (own : list (string * Tally)) (k : string)
    : list (string * Tally) :=
  match bump_own k own with
  | Some own' => own'
  | None =>
      if decide (k = "__proto__") then own
      else if decide (k ∈ object_prototype_members)
           then own ++ [(k, Inherited 1)]
           else own ++ [(k, Times 1)]
  end.

Definition digit (c : ascii) : option N :=
  let n := N_of_ascii c in
  if (48 <=? n)%N && (n <=? 57)%N then Some (n - 48)%N else None.

Fixpoint numeral (acc : N) (s : string) : option N :=
  match s with
  | EmptyString => Some acc
  | String c s' =>
      match digit c with
      | Some d => numeral (10 * acc + d)%N s'
      | None => None
      end
  end.

(** The array index that a property key is, if it is one: the key is the
    decimal numeral, without leading zero, of an integer below [2^32 - 1]. *)
Definition array_index (k : string) : option N :=
  match k with
  | EmptyString => None
  | String "0" EmptyString => Some 0%N
  | String "0" _ => None
  | _ =>
      match numeral 0 k with
      | Some n => if (n <? 4294967295)%N then Some n else None
      | None => None
      end
  end.

Definition index_le (p q : string * Tally) : Prop :=
  (default 0 (array_index p.1) ≤ default 0 (array_index q.1))%N.

#[global] Instance index_le_dec p q : Decision (index_le p q).
Proof. unfold index_le. apply _. Defined.

(** [Object.entries(acc)]: the keys that are array indices in ascending
    order, then the other keys in the order of their creation. *)
Definition entries (own : list (string * Tally)) : list (string * Tally) :=
  merge_sort index_le (List.filter (λ p, bool_decide (is_Some (array_index p.1))) own)
  ++ List.filter (λ p, negb (bool_decide (is_Some (array_index p.1)))) own.

Definition tally (keys : list string) : list (string * Tally) :=
  entries (foldl tally_add [] keys).

(** ** The batch gap-filling engine ([cli/translate.ts]) *)

Module Cli.
Section BatchEngine.
Context {Ext : Type}.

(** [AudarCLIConfig]; optional fields are options.  [batchSize] and
    [maxItems] are numbers, here integers of either sign. *)
Record AudarCLIConfig := {
  contentSources : list ContentSource;
  locales : list string;
  sourceLocale : option string;
  excludeTypes : option (list string);
  batchSize : option Z;
  maxItems : option Z }.

(** [CLIOptions]; an absent [dryRun] is [false].  [types], [force] and
    [config] are not read by [runTranslation]. *)
Record CLIOptions := {
  dryRun : bool;
  opt_locale : option string }.

Variable database : DatabaseAdapter Ext.
Variable llm : LLMProvider Ext.

Fixpoint for_each {A} (l : list A) (body : A → M (Ext := Ext) unit) : M unit :=
  match l with
  | [] => ret ()
  | x :: l' => body x ;; for_each l' body
  end.

Definition includes (l : list string) (x : string) : bool :=
  bool_decide (x ∈ l).

Definition content_of (item : TranslationItem) : DiscoveredContent :=
  {| dc_contentType := contentType item;
     dc_contentId := contentId item;
     dc_text := text item;
     dc_sourceHash := batch_source_hash (text item) |}.

Definition excluded (config : AudarCLIConfig) (item : TranslationItem) : bool :=
  match excludeTypes config with
  | Some types => includes types (contentType item)
  | None => false
  end.

Definition discoverContent (config : AudarCLIConfig)
    : M (Ext := Ext) (list DiscoveredContent) :=
  print LineDiscovering ;;
  match getAllTranslatableContent database with
  | None =>
      throw ("DatabaseAdapter does not support CLI mode. " ++
             "Please implement getAllTranslatableContent() method.")%string
  | Some discover =>
      do found <- invoke (CallDiscover (contentSources config))
                    (discover (contentSources config));
      let allContent :=
        map content_of (List.filter (λ item, negb (excluded config item)) found) in
      print (LineFound (length allContent)) ;;
      let breakdown := tally (map dc_contentType allContent) in
      for_each breakdown (λ entry, print (LineTypeCount entry.1 entry.2)) ;;
      ret allContent
  end.

Definition item_of_content (c : DiscoveredContent) : TranslationItem :=
  {| contentType := dc_contentType c; contentId := dc_contentId c;
     text := dc_text c |}.

(** [targetLocale ? [targetLocale] : locales] *)
Definition target_locales (locales : list string) (targetLocale : option string)
    : list string :=
  match targetLocale with
  | Some l => if String.eqb l "" then locales else [l]
  | None => locales
  end.

(** [!cached || cached.source_hash !== item.sourceHash], with [cached] the
    first row of [cachedTranslations] for the item's type and id. *)
Definition needs_translation (cachedTranslations : list CachedRow)
    (item : DiscoveredContent) : bool :=
  match List.find (λ c, bool_decide (content_type c = dc_contentType item)
                        && bool_decide (content_id c = dc_contentId item))
                  cachedTranslations with
  | None => true
  | Some cached => negb (bool_decide (source_hash cached = dc_sourceHash item))
  end.

Definition gap_of (cachedTranslations : list CachedRow)
    (targetLocales : list string) (item : DiscoveredContent)
    : option TranslationGap :=
  let missing :=
    List.filter (λ _ : string, needs_translation cachedTranslations item)
                targetLocales in
  if decide (0 < length missing)
  then Some {| gap_contentType := dc_contentType item;
               gap_contentId := dc_contentId item;
               gap_text := dc_text item;
               gap_sourceHash := dc_sourceHash item;
               missingLocales := missing |}
  else None.

(** The store is asked once, for [targetLocales[0]] ([undefined] when
    there is no locale); the [cacheMap] the source builds next is never
    read. *)
Definition findTranslationGaps (content : list DiscoveredContent)
    (locales : list string) (targetLocale : option string)
    : M (Ext := Ext) (list TranslationGap) :=
  print LineFindingGaps ;;
  let targetLocales := target_locales locales targetLocale in
  let asked := map item_of_content content in
  do cachedTranslations <-
    invoke (CallGetCached asked (head targetLocales))
      (getCachedTranslations database asked (head targetLocales));
  let gaps := omap (gap_of cachedTranslations targetLocales) content in
  print (LineGaps (length gaps)) ;;
  let localeBreakdown := tally (concat (map missingLocales gaps)) in
  for_each localeBreakdown (λ entry, print (LineLocaleMissing entry.1 entry.2)) ;;
  ret gaps.

Definition item_of_gap (g : TranslationGap) : TranslationItem :=
  {| contentType := gap_contentType g; contentId := gap_contentId g;
     text := gap_text g |}.

Definition rows_of_batch (locale : string) (batch : list TranslationGap)
    (translations : list string) : list SaveRow :=
  imap (λ idx item,
          {| sv_content_type := gap_contentType item;
             sv_content_id := gap_contentId item;
             sv_locale := locale;
             sv_original_text := gap_text item;
             sv_translated_text := translations !! idx;
             sv_source_hash := gap_sourceHash item |})
       batch.

Definition itemsForLocale (gaps : list TranslationGap) (locale : string)
    : list TranslationGap :=
  List.filter (λ g, includes (missingLocales g) locale) gaps.

(** The body of one turn of the [for] loop: the [try] block with its
    [catch], returning [translations.length]. *)
Definition translate_one (locale sourceLocale : string)
    (batchNumber batches : Num) (batch : list TranslationGap)
    : M (Ext := Ext) nat :=
  print (LineBatch batchNumber batches (length batch)) ;;
  let translationItems := map item_of_gap batch in
  rethrowing
    (do translations <-
       invoke (CallTranslate translationItems sourceLocale locale)
         (translateBatch llm translationItems sourceLocale locale);
     let rows := rows_of_batch locale batch translations in
     invoke (CallSave rows) (saveTranslations database rows) ;;
     print (LineBatchSaved batchNumber batches (length translations)) ;;
     ret (length translations))
    (λ error, print (LineBatchFailed batchNumber batches error)).

(** [for (let i = 0; i < itemsForLocale.length; i += batchSize)], given
    [fuel] turns.  A [batchSize] below one does not move [i] forward, and
    the loop then ends only when a call throws. *)
Fixpoint batch_loop (fuel : nat) (its : list TranslationGap)
    (locale sourceLocale : string) (batchSize' : Z) (batches : Num)
    (i : Z) (totalTranslated : nat) : P (Ext := Ext) nat :=
  if decide (i < Z.of_nat (length its))%Z then
    match fuel with
    | O => spent
    | S fuel' =>
        let batch := slice i (i + batchSize') its in
        let batchNumber := succ (floor_div i batchSize') in
        await n <- ended (translate_one locale sourceLocale batchNumber batches batch);
        batch_loop fuel' its locale sourceLocale batchSize' batches
          (i + batchSize') (totalTranslated + n)
    end
  else ended (ret totalTranslated).

Definition translateBatch (fuel : nat) (gaps : list TranslationGap)
    (locale sourceLocale : string) (batchSize' : Z) : P (Ext := Ext) nat :=
  let its := itemsForLocale gaps locale in
  if decide (length its = 0) then ended (ret 0)
  else
    await _ <- ended (print (LineTranslating locale));
    let batches := ceil_div (Z.of_nat (length its)) batchSize' in
    batch_loop fuel its locale sourceLocale batchSize' batches 0 0.

(** [for (const locale of targetLocales) totalTranslated += await translateBatch(...)] *)
Fixpoint translate_locales (fuel : nat) (gaps : list TranslationGap)
    (sourceLocale : string) (batchSize' : Z)
    (targetLocales : list string) (totalTranslated : nat)
    : P (Ext := Ext) nat :=
  match targetLocales with
  | [] => ended (ret totalTranslated)
  | locale :: rest =>
      await translated <- translateBatch fuel gaps locale sourceLocale batchSize';
      translate_locales fuel gaps sourceLocale batchSize' rest
        (totalTranslated + translated)
  end.

(** [config.batchSize || 20]: an absent size and the size 0 give 20, every
    other size is kept, a negative one too. *)
Definition effective_batchSize (config : AudarCLIConfig) : Z :=
  match batchSize config with
  | Some 0%Z | None => 20%Z
  | Some size => size
  end.

(** [runTranslation]; each loop over batches is given [fuel] turns. *)
Definition runTranslation (fuel : nat) (config : AudarCLIConfig)
    (options : CLIOptions) : P (Ext := Ext) unit :=
  await _ <- ended (print LineBanner);
  await content <- ended (discoverContent config);
  if decide (length content = 0) then ended (print LineNoContent)
  else
    await gaps <-
      ended (findTranslationGaps content (locales config) (opt_locale options));
    if decide (length gaps = 0) then ended (print LineNoGaps)
    else if dryRun options then
      ended
        (print LineDryRunNotice ;;
         print (LineDryRun (length gaps)) ;;
         for_each (target_locales (locales config) (opt_locale options))
           (λ locale,
              print (LineDryRunLocale locale (length (itemsForLocale gaps locale)))))
    else
      let sourceLocale' := js_or (sourceLocale config) "en" in
      let batchSize' := effective_batchSize config in
      let targetLocales := target_locales (locales config) (opt_locale options) in
      await totalTranslated <-
        translate_locales fuel gaps sourceLocale' batchSize' targetLocales 0;
      ended
        (print LineComplete ;;
         print LineSummaryHead ;;
         print (LineTotal totalTranslated) ;;
         print LineDuration ;;
         print (LineLocales targetLocales) ;;
         print LineNextSteps ;;
         print LineNextDeploy ;;
         print LineNextLazy).
End BatchEngine.
End Cli.

(** ** A store, a provider and a locale source to run the drivers on

    The store keeps the rows it is given under their primary key
    [(content_type, content_id, locale)], a later row replacing an earlier
    one (the upsert of the interface, as in the repository's example
    Supabase adapter); it answers [getCachedTranslations] with the rows of
    the asked items at the asked locale.  The provider answers its [n]-th
    call as a given function says. *)
Module Mem.

Record state := {
  rows : gmap (string * string * string) SaveRow;
  tables : list TranslationItem;
  provider_calls : nat;
  current_locale : string }.

Definition row_key (r : SaveRow) : string * string * string :=
  (sv_content_type r, sv_content_id r, sv_locale r).

Definition cached_of (r : SaveRow) : CachedRow :=
  {| content_type := sv_content_type r; content_id := sv_content_id r;
     translated_text := sv_translated_text r; source_hash := sv_source_hash r |}.

Definition upsert (m : gmap (string * string * string) SaveRow)
    (saved : list SaveRow) : gmap (string * string * string) SaveRow :=
  foldl (λ m r, <[row_key r := r]> m) m saved.

Definition select (m : gmap (string * string * string) SaveRow)
    (its : list TranslationItem) (targetLocale : option string)
    : list CachedRow :=
  match targetLocale with
  | None => []
  | Some l =>
      omap (λ k : string * string, cached_of <$> m !! (k.1, k.2, l))
           (remove_dups (map (λ it, (contentType it, contentId it)) its))
  end.

Definition store : DatabaseAdapter state := {|
  getCachedTranslations its targetLocale s := (Ok (select (rows s) its targetLocale), s);
  saveTranslations saved s :=
    (Ok (), {| rows := upsert (rows s) saved; tables := tables s;
               provider_calls := provider_calls s;
               current_locale := current_locale s |});
  getAllTranslatableContent := Some (λ _ s, (Ok (tables s), s)) |}.

Definition provider
    (answer : nat → list TranslationItem → string → string → result (list string))
    : LLMProvider state := {|
  translateBatch its sourceLocale targetLocale s :=
    (answer (provider_calls s) its sourceLocale targetLocale,
     {| rows := rows s; tables := tables s;
        provider_calls := Datatypes.S (provider_calls s);
        current_locale := current_locale s |}) |}.

Definition locale_source (default : string) (supported : list string)
    : I18nAdapter state := {|
  getCurrentLocale s := current_locale s;
  getDefaultLocale _ := default;
  getSupportedLocales _ := supported |}.

Definition world (s : state) : World state :=
  {| ext := s; calls := []; console := []; localStorage := ∅; now := "2025-11-13T00:00:00.000Z" |}.

Definition switch_locale (l : string) (w : World state) : World state :=
  {| ext := {| rows := rows (ext w); tables := tables (ext w);
               provider_calls := provider_calls (ext w);
               current_locale := l |};
     calls := calls w; console := console w;
     localStorage := localStorage w; now := now w |}.

(** A provider that marks each text with the target locale. *)
Definition tagging : LLMProvider state :=
  provider (λ _ its _ targetLocale,
              Ok (map (λ it, ("[" ++ targetLocale ++ "] " ++ text it)%string) its)).

Definition config (p : LLMProvider state) : AudarConfig :=
  {| database := store; llm := p;
     i18n := locale_source "en" ["en"; "kk"; "de"]; defaultLocale := None |}.
End Mem.

(** ** Vocabulary of the properties *)

(** Whether the character [c] occurs in [s]. *)
Fixpoint has_char (c : ascii) (s : string) : bool :=
  match s with
  | EmptyString => false
  | String x s' => bool_decide (x = c) || has_char c s'
  end.

(** An item none of whose fields holds the separator ["|"] of the
    pre-digest string, and whose type and id do not hold the [":"] that
    separates the fields. *)
Definition separator_free (item : TranslationItem) : Prop :=
  has_char "|" (contentType item) = false ∧ has_char ":" (contentType item) = false ∧
  has_char "|" (contentId item) = false ∧ has_char ":" (contentId item) = false ∧
  has_char "|" (text item) = false.


(** Items whose encodings run into each other. *)
Module Collision.
Definition A : TranslationItem :=
  {| contentType := "a"; contentId := "1"; text := "p|a:1:q" |}.
Definition B : TranslationItem :=
  {| contentType := "a"; contentId := "1:p|a"; text := "1:q|a:1:p" |}.
Definition X1 : TranslationItem :=
  {| contentType := "a"; contentId := "b"; text := "x" |}.
Definition X2 : TranslationItem :=
  {| contentType := "c"; contentId := "d"; text := "y" |}.
End Collision.

(** A view whose only item was translated while its text was ["Old title"]
    and reads ["New title"] now. *)
Module Stale.
Definition item : TranslationItem :=
  {| contentType := "product_title"; contentId := "1"; text := "New title" |}.

Definition record : SaveRow :=
  {| sv_content_type := "product_title"; sv_content_id := "1";
     sv_locale := "kk"; sv_original_text := "Old title";
     sv_translated_text := Some "Eski atau";
     sv_source_hash := batch_source_hash "Old title" |}.

Definition store : Mem.state :=
  {| Mem.rows := {[ ("product_title", "1", "kk") := record ]};
     Mem.tables := [item]; Mem.provider_calls := 0;
     Mem.current_locale := "kk" |}.

Definition config : AudarConfig := Mem.config Mem.tagging.
Definition world : World Mem.state := Mem.world store.
Definition view : Render := render config "product:1" [item] world.
End Stale.

(** A view synchronised under one locale, and the locale switched. *)
Module Switch.
Definition item : TranslationItem :=
  {| contentType := "product_title"; contentId := "1"; text := "Red shoes" |}.

Definition store : Mem.state :=
  {| Mem.rows := ∅; Mem.tables := [item]; Mem.provider_calls := 0;
     Mem.current_locale := "kk" |}.

(** The provider answers its first call and is down afterwards. *)
Definition flaky : LLMProvider Mem.state :=
  Mem.provider (λ n its _ targetLocale,
    match n with
    | O => Ok (map (λ it, ("[" ++ targetLocale ++ "] " ++ text it)%string) its)
    | _ => Throw "503 Service Unavailable"
    end).

Definition config : AudarConfig := Mem.config Mem.tagging.
Definition config_flaky : AudarConfig := Mem.config flaky.

Definition world_kk : World Mem.state := Mem.world store.
Definition view_kk : Render := render config "feed" [item] world_kk.

(** The state and the world once the cycle under ["kk"] has ended. *)
Definition settled_kk : ViewState * World Mem.state :=
  default (initial, world_kk) (sync config 4 view_kk initial world_kk).

Definition world_de : World Mem.state := Mem.switch_locale "de" settled_kk.2.
Definition view_de : Render := render config "feed" [item] world_de.
End Switch.

(** A provider that loses the first string of every reply. *)
Module Miscount.
Definition item1 : TranslationItem :=
  {| contentType := "product_title"; contentId := "1"; text := "Red shoes" |}.
Definition item2 : TranslationItem :=
  {| contentType := "product_title"; contentId := "2"; text := "Blue hat" |}.

Definition dropping : LLMProvider Mem.state :=
  Mem.provider (λ _ its _ targetLocale,
    Ok (tail (map (λ it, ("[" ++ targetLocale ++ "] " ++ text it)%string) its))).

Definition store : Mem.state :=
  {| Mem.rows := ∅; Mem.tables := [item1; item2]; Mem.provider_calls := 0;
     Mem.current_locale := "kk" |}.

Definition config : AudarConfig := Mem.config dropping.
Definition world : World Mem.state := Mem.world store.
Definition view : Render := render config "feed" [item1; item2] world.

Definition gaps : list TranslationGap :=
  [ {| gap_contentType := "product_title"; gap_contentId := "1";
       gap_text := "Red shoes";
       gap_sourceHash := batch_source_hash "Red shoes";
       missingLocales := ["kk"] |};
    {| gap_contentType := "product_title"; gap_contentId := "2";
       gap_text := "Blue hat";
       gap_sourceHash := batch_source_hash "Blue hat";
       missingLocales := ["kk"] |} ].
End Miscount.

(** ** Vocabulary of the batch engine's properties *)

Section Durability.
Context {Ext : Type}.
Variable database : DatabaseAdapter Ext.
Variable llm : LLMProvider Ext.

(** The slice of turn [j] of the loop, [j] counted from 0:
    [itemsForLocale.slice(j * batchSize, j * batchSize + batchSize)]. *)
Definition nth_batch (its : list TranslationGap) (batchSize' j : nat)
    : list TranslationGap :=
  take batchSize' (drop (j * batchSize') its).

(** The state of the outside once the [n] batches from [j] on have been
    translated and saved, every call returning; [None] when one throws. *)
Fixpoint saved_through (its : list TranslationGap) (locale' sourceLocale' : string)
    (batchSize' n j : nat) (s : Ext) : option Ext :=
  match n with
  | O => Some s
  | Datatypes.S n' =>
      let batch := nth_batch its batchSize' j in
      match translateBatch llm (map Cli.item_of_gap batch) sourceLocale' locale' s with
      | (Ok translations, s1) =>
          match saveTranslations database
                  (Cli.rows_of_batch locale' batch translations) s1 with
          | (Ok _, s2) =>
              saved_through its locale' sourceLocale' batchSize' n' (Datatypes.S j) s2
          | (Throw _, _) => None
          end
      | (Throw _, _) => None
      end
  end.

(** What the drivers rely on in a store, with [present s k] for "the
    store in state [s] holds a record under the primary key [k]": the
    rows of a save that returned are present, and no save and no provider
    call removes a record. *)
Record StoreContract (present : Ext → string * string * string → Prop) : Prop := {
  save_presents : ∀ rows s s' row,
    saveTranslations database rows s = (Ok (), s') → row ∈ rows →
    present s' (sv_content_type row, sv_content_id row, sv_locale row);
  save_keeps : ∀ rows s res s' k,
    saveTranslations database rows s = (res, s') → present s k → present s' k;
  translate_keeps : ∀ its sourceLocale' targetLocale s res s' k,
    translateBatch llm its sourceLocale' targetLocale s = (res, s') →
    present s k → present s' k }.

(** The adapter's two reading methods leave the outside as it is. *)
Definition reads_pure : Prop :=
  (∀ its targetLocale s, (getCachedTranslations database its targetLocale s).2 = s)
  ∧ (∀ discover, getAllTranslatableContent database = Some discover →
       ∀ sources s, (discover sources s).2 = s).
End Durability.

(** A call that asks the store without writing to it. *)
Definition read_only (c : Call) : bool :=
  match c with
  | CallGetCached _ _ | CallDiscover _ => true
  | CallSave _ | CallTranslate _ _ _ => false
  end.

(** From [w] to [w'] the store was only read. *)
Definition only_read {Ext : Type} (db : DatabaseAdapter Ext) (w w' : World Ext)
    : Prop :=
  (∃ new, calls w' = calls w ++ new ∧ Forall (λ c, read_only c.1 = true) new)
  ∧ localStorage w' = localStorage w
  ∧ (reads_pure db → ext w' = ext w).

(** Three gaps translated one per batch, the provider failing from its
    second call on. *)
Module Abort.
Definition gap (id text' : string) : TranslationGap :=
  {| gap_contentType := "product_title"; gap_contentId := id;
     gap_text := text'; gap_sourceHash := batch_source_hash text';
     missingLocales := ["kk"] |}.

Definition gaps : list TranslationGap :=
  [gap "1" "Red shoes"; gap "2" "Blue hat"; gap "3" "Green coat"].

Definition store : Mem.state :=
  {| Mem.rows := ∅; Mem.tables := []; Mem.provider_calls := 0;
     Mem.current_locale := "en" |}.

Definition world : World Mem.state := Mem.world store.

Definition present (s : Mem.state) (k : string * string * string) : Prop :=
  is_Some (Mem.rows s !! k).
End Abort.

(** A dry run over two discovered items, one of them translated already. *)
Module DryRun.
Definition item1 : TranslationItem :=
  {| contentType := "product_title"; contentId := "1"; text := "Red shoes" |}.
Definition item2 : TranslationItem :=
  {| contentType := "product_title"; contentId := "2"; text := "Blue hat" |}.

Definition record : SaveRow :=
  {| sv_content_type := "product_title"; sv_content_id := "1";
     sv_locale := "kk"; sv_original_text := "Red shoes";
     sv_translated_text := Some "[kk] Red shoes";
     sv_source_hash := batch_source_hash "Red shoes" |}.

Definition store : Mem.state :=
  {| Mem.rows := {[ ("product_title", "1", "kk") := record ]};
     Mem.tables := [item1; item2]; Mem.provider_calls := 0;
     Mem.current_locale := "en" |}.

Definition world : World Mem.state := Mem.world store.

Definition config : Cli.AudarCLIConfig :=
  {| Cli.contentSources := []; Cli.locales := ["kk"; "de"];
     Cli.sourceLocale := None; Cli.excludeTypes := None;
     Cli.batchSize := None; Cli.maxItems := None |}.

Definition options : Cli.CLIOptions :=
  {| Cli.dryRun := true; Cli.opt_locale := None |}.
End DryRun.

(** A store in which both items of [DryRun] have a record under ["kk"],
    made from their present text, and none under ["de"]. *)
Module Counts.
Definition record2 : SaveRow :=
  {| sv_content_type := "product_title"; sv_content_id := "2";
     sv_locale := "kk"; sv_original_text := "Blue hat";
     sv_translated_text := Some "[kk] Blue hat";
     sv_source_hash := batch_source_hash "Blue hat" |}.

Definition store : Mem.state :=
  {| Mem.rows := {[ ("product_title", "1", "kk") := DryRun.record;
                    ("product_title", "2", "kk") := record2 ]};
     Mem.tables := [DryRun.item1; DryRun.item2]; Mem.provider_calls := 0;
     Mem.current_locale := "en" |}.

Definition world : World Mem.state := Mem.world store.

(** The configuration of [DryRun] with its locales in the other order. *)
Definition config_de_kk : Cli.AudarCLIConfig :=
  {| Cli.contentSources := []; Cli.locales := ["de"; "kk"];
     Cli.sourceLocale := None; Cli.excludeTypes := None;
     Cli.batchSize := None; Cli.maxItems := None |}.
End Counts.

(** ** The example Supabase adapter ([adapters/examples/supabase-adapter.ts]) *)

Module Supabase.

(** An element of [data]: the columns of the interface, and the [locale]
    property the adapter reads from the object, [None] where it has none. *)
Record Row := {
  row : CachedRow;
  row_locale : option string }.

(** What the two promises resolve to.  [error] is [Some] for a value that
    is truthy. *)
Record QueryReply := {
  data : option (list Row);
  q_error : option string }.

Record UpsertReply := {
  u_error : option string }.

(** [`${t.content_type}:${t.content_id}:${t.locale}`] *)
Definition dedupe_key (t : SaveRow) : string :=
  (sv_content_type t ++ ":" ++ sv_content_id t ++ ":" ++ sv_locale t)%string.

(** [Map.prototype.set] on the entries of a [Map], kept in insertion
    order: a key that is present keeps its place and takes the new value. *)
Fixpoint map_set (k : string) (t : SaveRow) (m : list (string * SaveRow))
    : list (string * SaveRow) :=
  match m with
  | [] => [(k, t)]
  | (k', t') :: m' =>
      if decide (k = k') then (k, t) :: m' else (k', t') :: map_set k t m'
  end.

(** [Array.from(new Map(translations.map(t => [key, t])).values())] *)
Definition uniqueTranslations (translations : list SaveRow) : list SaveRow :=
  (foldl (λ m t, map_set (dedupe_key t) t m) [] translations).*2.

Section Adapter.
Context {Ext : Type}.

(** [SupabaseClient], by the two chains the adapter calls:
    [from(table).select(columns).in(column, values)] and
    [from(table).upsert(data, { onConflict })]. *)
Record SupabaseClient := {
  select_in :
    string → string → string → list (string * string) → Ext →
    result QueryReply * Ext;
  upsert : string → list SaveRow → string → Ext → result UpsertReply * Ext }.

(** [createSupabaseAdapter]; its two [console.error] lines are left out.
    The adapter has no [getAllTranslatableContent]. *)
Definition createSupabaseAdapter (supabase : SupabaseClient) : DatabaseAdapter Ext := {|
  getCachedTranslations its targetLocale s :=
    if decide (length its = 0) then (Ok [], s)
    else
      match select_in supabase "content_translations"
              "content_type, content_id, translated_text, source_hash"
              "(content_type,content_id)"
              (map (λ item, (contentType item, contentId item)) its) s with
      | (Ok reply, s') =>
          match q_error reply with
          | Some _ => (Ok [], s')
          | None =>
              (Ok (map row (List.filter
                              (λ r, bool_decide (row_locale r = targetLocale))
                              (default [] (data reply)))), s')
          end
      | (Throw e, s') => (Throw e, s')
      end;
  saveTranslations translations s :=
    match upsert supabase "content_translations" (uniqueTranslations translations)
            "content_type,content_id,locale" s with
    | (Ok reply, s') =>
        match u_error reply with
        | Some error => (Throw error, s')
        | None => (Ok (), s')
        end
    | (Throw e, s') => (Throw e, s')
    end;
  getAllTranslatableContent := None |}.
End Adapter.
Arguments SupabaseClient : clear implicits.

(** A client over a table held in memory.  [select] returns the named
    columns only, so the rows it answers with have no [locale]. *)
Definition table_client : SupabaseClient (list SaveRow) := {|
  select_in _ _ _ values table :=
    (Ok {| data :=
             Some (map (λ t, {| row := Mem.cached_of t; row_locale := None |})
                       (List.filter
                          (λ t, bool_decide ((sv_content_type t, sv_content_id t) ∈ values))
                          table));
           q_error := None |}, table);
  upsert _ saved _ table := (Ok {| u_error := None |}, table ++ saved) |}.

(** A client whose queries resolve with an error. *)
Definition failing_client : SupabaseClient (list SaveRow) := {|
  select_in _ _ _ _ table :=
    (Ok {| data := None; q_error := Some "permission denied" |}, table);
  upsert _ _ _ table := (Ok {| u_error := Some "permission denied" |}, table) |}.
End Supabase.

(** ** Further vocabulary *)

(** The batches of items the provider was called with in the calls [cs],
    in the order of the calls. *)
Definition sent_batches (cs : list (Call * bool)) : list (list TranslationItem) :=
  omap (λ c, match c.1 with
             | CallTranslate its _ _ => Some its
             | _ => None
             end) cs.

(** [Math.ceil(itemsForLocale.length / batchSize)] *)
Definition batch_count (its : list TranslationGap) (batchSize' : nat) : nat :=
  (length its + batchSize' - 1) / batchSize'.

(** A store that cannot be reached. *)
Module Outage.
Definition store : DatabaseAdapter Mem.state := {|
  getCachedTranslations _ _ s := (Throw "ECONNREFUSED", s);
  saveTranslations _ s := (Throw "ECONNREFUSED", s);
  getAllTranslatableContent := None |}.

Definition config : AudarConfig :=
  {| database := store; llm := Mem.tagging;
     i18n := Mem.locale_source "en" ["en"; "kk"; "de"]; defaultLocale := None |}.
End Outage.

(** Inputs on which the further properties are run. *)
Module Scenes.
(** The view of [Miscount] with its items in the other order. *)
Definition view_swapped : Render :=
  render Miscount.config "feed" [Miscount.item2; Miscount.item1] Miscount.world.

(** A state in which a cycle is in flight and nothing is cached. *)
Definition in_flight : ViewState := {| cache := ∅; isTranslating := true |}.

(** What [findTranslationGaps] finds over the store of [DryRun]. *)
Definition content : list DiscoveredContent :=
  [Cli.content_of DryRun.item1; Cli.content_of DryRun.item2].


Definition config_excluding : Cli.AudarCLIConfig :=
  {| Cli.contentSources := []; Cli.locales := ["kk"; "de"];
     Cli.sourceLocale := None; Cli.excludeTypes := Some ["product_title"];
     Cli.batchSize := None; Cli.maxItems := None |}.

Definition config_no_locale : Cli.AudarCLIConfig :=
  {| Cli.contentSources := []; Cli.locales := [];
     Cli.sourceLocale := None; Cli.excludeTypes := None;
     Cli.batchSize := None; Cli.maxItems := None |}.

(** A configuration with a batch size below zero. *)
Definition config_negative : Cli.AudarCLIConfig :=
  {| Cli.contentSources := []; Cli.locales := ["kk"; "de"];
     Cli.sourceLocale := None; Cli.excludeTypes := None;
     Cli.batchSize := Some (-1)%Z; Cli.maxItems := None |}.

Definition options : Cli.CLIOptions :=
  {| Cli.dryRun := false; Cli.opt_locale := None |}.

(** The table behind the Supabase client, holding one translation. *)
Definition table : list SaveRow := [DryRun.record].

(** A provider that hands the texts back, and a world over the table. *)
Definition echo : LLMProvider (list SaveRow) :=
  {| translateBatch its _ _ s := (Ok (map text its), s) |}.

Definition table_world : World (list SaveRow) :=
  {| ext := table; calls := []; console := []; localStorage := ∅;
     now := "2025-11-13T00:00:00.000Z" |}.

(** Rows of which the first and the last have the same primary key. *)
Definition twice : list SaveRow :=
  [ DryRun.record;
    Stale.record;
    {| sv_content_type := "product_title"; sv_content_id := "1";
       sv_locale := "kk"; sv_original_text := "Red shoes";
       sv_translated_text := Some "Qyzyl aiaq kiim";
       sv_source_hash := batch_source_hash "Red shoes" |} ].
(** A store that reads and refuses to write. *)
Definition read_only_store : DatabaseAdapter Mem.state := {|
  getCachedTranslations := getCachedTranslations Mem.store;
  saveTranslations _ s := (Throw "permission denied", s);
  getAllTranslatableContent := getAllTranslatableContent Mem.store |}.
End Scenes.

(** The state of the outside once the gaps of every locale of [targets], in
    turn, have been translated and saved in batches, every call returning;
    [None] when one throws. *)
Fixpoint locales_through {Ext : Type} (db : DatabaseAdapter Ext)
    (provider : LLMProvider Ext) (gaps : list TranslationGap)
    (sourceLocale' : string) (batchSize' : nat) (targets : list string) (s : Ext)
    : option Ext :=
  match targets with
  | [] => Some s
  | l :: rest =>
      match saved_through db provider (Cli.itemsForLocale gaps l) l sourceLocale'
              batchSize' (batch_count (Cli.itemsForLocale gaps l) batchSize') 0 s with
      | Some s' => locales_through db provider gaps sourceLocale' batchSize' rest s'
      | None => None
      end
  end.

Module FullRun.
(** The run of [DryRun], not dry. *)
Definition discovered : list DiscoveredContent * World Mem.state :=
  match Cli.discoverContent Mem.store DryRun.config (print LineBanner DryRun.world).2 with
  | (Ok content, w) => (content, w)
  | (Throw _, w) => ([], w)
  end.

Definition gaps_found : list TranslationGap * World Mem.state :=
  match Cli.findTranslationGaps Mem.store discovered.1 ["kk"; "de"] None discovered.2 with
  | (Ok gaps, w) => (gaps, w)
  | (Throw _, w) => ([], w)
  end.
End FullRun.

(** * Properties *)

(** ** The digest *)

Lemma hex32_length w tail :
  String.length (SHA256.hex32 w tail) = (8 + String.length tail)%nat.
Proof. reflexivity. Qed.

Lemma sha256_hex_length s : String.length (sha256_hex s) = 64.
Proof.
  unfold sha256_hex, SHA256.sha256_hex, SHA256.hex.
  by rewrite !hex32_length.
Qed.

Example sha256_hex_abc :
  sha256_hex "abc"
  = "ba7816bf8f01cfea414140de5dae2223b00361a396177a9cb410ff61f20015ad".
Proof. vm_compute. reflexivity. Qed.

Example sha256_hex_empty :
  sha256_hex ""
  = "e3b0c44298fc1c149afbf4c8996fb92427ae41e4649b934ca495991b7852b855".
Proof. vm_compute. reflexivity. Qed.

Example sha256_hex_two_blocks :
  sha256_hex "abcdbcdecdefdefgefghfghighijhijkijkljklmklmnlmnomnopnopq"
  = "248d6a61d20638b8e5c026930c3e6039a33ce45964ff2167f6ecedd419db06c1".
Proof. vm_compute. reflexivity. Qed.

Lemma substring_0_length (n : nat) (s : string) :
  (n ≤ String.length s)%nat → String.length (substring 0 n s) = n.
Proof.
  revert s. induction n as [|n IH]; intros [|c s] Hn; simpl in *; try lia.
  rewrite IH; lia.
Qed.

Lemma batch_source_hash_length s : String.length (batch_source_hash s) = 16.
Proof.
  unfold batch_source_hash. apply substring_0_length.
  rewrite sha256_hex_length. lia.
Qed.

(** ** The order of [sort] *)

Lemma units_compare_refl a : units_compare a a = Eq.
Proof. induction a as [|x a IH]; simpl; [done|]. by rewrite N.compare_refl. Qed.

Lemma units_compare_eq a b : units_compare a b = Eq → a = b.
Proof.
  revert b. induction a as [|x a IH]; intros [|y b]; simpl; try done.
  destruct (x ?= y)%N eqn:Hxy; try done.
  apply N.compare_eq_iff in Hxy as ->. intros H. f_equal. by apply IH.
Qed.

Lemma units_compare_antisym a b :
  units_compare b a = CompOpp (units_compare a b).
Proof.
  revert b. induction a as [|x a IH]; intros [|y b]; simpl; try done.
  rewrite (N.compare_antisym x y). destruct (x ?= y)%N; simpl; [apply IH|done..].
Qed.

Lemma units_compare_lt_trans a b c :
  units_compare a b = Lt → units_compare b c = Lt → units_compare a c = Lt.
Proof.
  revert b c. induction a as [|x a IH]; intros [|y b] [|z c]; simpl; try done.
  destruct (x ?= y)%N eqn:Hxy; try done;
    destruct (y ?= z)%N eqn:Hyz; try done; intros Hab Hbc.
  - apply N.compare_eq_iff in Hxy, Hyz. subst. rewrite N.compare_refl. eauto.
  - apply N.compare_eq_iff in Hxy. subst. by rewrite Hyz.
  - apply N.compare_eq_iff in Hyz. subst. by rewrite Hxy.
  - rewrite N.compare_lt_iff in Hxy, Hyz.
    assert (x < z)%N as Hxz by (by etrans). apply N.compare_lt_iff in Hxz. by rewrite Hxz.
Qed.

Lemma bytes_inj a b : bytes a = bytes b → a = b.
Proof.
  revert b. induction a as [|x a IH]; intros [|y b]; unfold bytes; simpl; try done.
  intros [= Hxy Hab]. f_equal; [|by apply IH].
  by rewrite <- (ascii_N_embedding x), <- (ascii_N_embedding y), Hxy.
Qed.

Lemma js_compare_refl a : js_compare a a = Eq.
Proof. unfold js_compare. by rewrite !units_compare_refl. Qed.

Lemma js_compare_eq a b : js_compare a b = Eq → a = b.
Proof.
  unfold js_compare. destruct (units_compare (code_units a) (code_units b)); try done.
  intros H. by apply bytes_inj, units_compare_eq.
Qed.

Lemma js_compare_antisym a b : js_compare b a = CompOpp (js_compare a b).
Proof.
  unfold js_compare. rewrite (units_compare_antisym (code_units a)).
  destruct (units_compare (code_units a) (code_units b)); simpl; [|done..].
  apply units_compare_antisym.
Qed.

Lemma js_compare_lt_trans a b c :
  js_compare a b = Lt → js_compare b c = Lt → js_compare a c = Lt.
Proof.
  unfold js_compare.
  destruct (units_compare (code_units a) (code_units b)) eqn:Hab; try done;
    destruct (units_compare (code_units b) (code_units c)) eqn:Hbc; try done;
    intros H1 H2.
  - apply units_compare_eq in Hab, Hbc. rewrite Hab, Hbc, units_compare_refl.
    by apply (units_compare_lt_trans _ (bytes b)).
  - apply units_compare_eq in Hab. by rewrite Hab, Hbc.
  - apply units_compare_eq in Hbc. by rewrite <- Hbc, Hab.
  - by rewrite (units_compare_lt_trans _ _ _ Hab Hbc).
Qed.

#[global] Instance str_le_trans : Transitive str_le.
Proof.
  intros a b c. unfold str_le.
  destruct (js_compare a b) eqn:Hab; try done;
    destruct (js_compare b c) eqn:Hbc; try done; intros _ _.
  - apply js_compare_eq in Hab, Hbc. subst. by rewrite js_compare_refl.
  - apply js_compare_eq in Hab. subst. by rewrite Hbc.
  - apply js_compare_eq in Hbc. subst. by rewrite Hab.
  - by rewrite (js_compare_lt_trans a b c).
Qed.

#[global] Instance str_le_total : Total str_le.
Proof.
  intros a b. unfold str_le. rewrite (js_compare_antisym a b).
  destruct (js_compare a b); simpl; [by left|by left|by right].
Qed.

#[global] Instance str_le_antisym : AntiSymm (=) str_le.
Proof.
  intros a b. unfold str_le. rewrite (js_compare_antisym a b).
  destruct (js_compare a b) eqn:Hab; simpl; try done.
  intros _ _. by apply js_compare_eq.
Qed.

(** The order is that of the code units, not that of the bytes: a
    character of the supplementary planes, which is two surrogates, comes
    before a character from U+E000 on. *)
Example js_sort_code_units :
  js_sort ["b"; "Ａ"; "ab"; "😀"] = ["ab"; "b"; "😀"; "Ａ"]
  ∧ String.leb "Ａ" "😀" = true.
Proof. split; vm_compute; reflexivity. Qed.

(** Whatever algorithm sorts, the result is the one sorted rearrangement
    of the list. *)
Lemma js_sort_unique l l' :
  Sorted str_le l' → l' ≡ₚ l → js_sort l = l'.
Proof.
  intros Hsorted Hperm. apply (Sorted_unique str_le).
  - apply Sorted_merge_sort; apply _.
  - done.
  - unfold js_sort. by rewrite merge_sort_Permutation.
Qed.

Lemma js_sort_Permutation l l' : l ≡ₚ l' → js_sort l = js_sort l'.
Proof.
  intros Hperm. apply js_sort_unique.
  - apply Sorted_merge_sort; apply _.
  - unfold js_sort. by rewrite merge_sort_Permutation.
Qed.

(** C5.  The view fingerprint does not depend on the order in which the
    caller lists the items: two lists that are permutations of each other
    get the same pre-digest string, hence the same fingerprint. *)
Theorem fingerprintView_permutation (items1 items2 : list TranslationItem) :
  items1 ≡ₚ items2 → fingerprintView items1 = fingerprintView items2.
Proof.
  intros Hperm. unfold fingerprintView, contentString.
  do 3 f_equal. apply js_sort_Permutation. by apply fmap_Permutation.
Qed.

Lemma fingerprintView_permutation_witness :
  [Collision.X1; Collision.X2] ≡ₚ [Collision.X2; Collision.X1]
  ∧ fingerprintView [Collision.X1; Collision.X2]
    = fingerprintView [Collision.X2; Collision.X1].
Proof.
  split; [apply perm_swap | apply fingerprintView_permutation, perm_swap].
Defined.

(** ** The pre-digest string *)

Lemma has_char_app c a b : has_char c (a ++ b)%string = has_char c a || has_char c b.
Proof. induction a as [|x a IH]; simpl; [done|]. rewrite IH. by rewrite orb_assoc. Qed.


(** Two strings that are cut at the first occurrence of [c] are cut alike. *)
Lemma app_sep_inj c a a' b b' :
  has_char c a = false → has_char c a' = false →
  (a ++ String c b)%string = (a' ++ String c b')%string → a = a' ∧ b = b'.
Proof.
  revert a'. induction a as [|x a IH]; intros [|y a']; simpl; intros Ha Ha' Heq.
  - by simplify_eq.
  - simplify_eq. by rewrite bool_decide_eq_true_2 in Ha'.
  - simplify_eq. by rewrite bool_decide_eq_true_2 in Ha.
  - apply orb_false_iff in Ha as [_ Ha], Ha' as [_ Ha'].
    simplify_eq. destruct (IH a' Ha Ha') as [-> ->]; done.
Qed.


Lemma encode_no_bar i : separator_free i → has_char "|" (encode i) = false.
Proof.
  intros (Ht & _ & Hd & _ & Hx). unfold encode.
  rewrite !has_char_app, Ht, Hd, Hx. reflexivity.
Qed.
















(** ** The source hash *)

(** C3 fails on the code: the coordinator saves all 64 digits of the digest
    as [source_hash], the batch engine computes and compares its first 16,
    so for no text do the two agree. *)
Theorem source_hash_mismatch (s : string) :
  coordinator_source_hash s ≠ batch_source_hash s.
Proof.
  intros Heq. apply (f_equal String.length) in Heq.
  unfold coordinator_source_hash in Heq.
  rewrite sha256_hex_length, batch_source_hash_length in Heq. lia.
Qed.

Lemma source_hash_prefix (s : string) :
  batch_source_hash s = substring 0 16 (coordinator_source_hash s).
Proof. reflexivity. Qed.

Lemma lookup_translationsToSave (r : Render) (its : list TranslationItem)
    (texts : list string) (i : nat) (row : SaveRow) :
  translationsToSave r its texts !! i = Some row →
  ∃ item, its !! i = Some item
    ∧ sv_content_type row = contentType item
    ∧ sv_content_id row = contentId item
    ∧ sv_original_text row = text item
    ∧ sv_translated_text row = texts !! i
    ∧ sv_source_hash row = coordinator_source_hash (text item).
Proof.
  unfold translationsToSave. rewrite list_lookup_imap.
  destruct (its !! i) as [item|]; [|done]. intros [= <-]. by exists item.
Qed.

(** A record the coordinator saved counts as a gap for the batch engine,
    although the text it was made from has not changed. *)
Lemma coordinator_record_is_batch_gap (r : Render) (its : list TranslationItem)
    (texts : list string) (i : nat) (row : SaveRow) (item : TranslationItem) :
  translationsToSave r its texts !! i = Some row → its !! i = Some item →
  Cli.needs_translation [Mem.cached_of row] (Cli.content_of item) = true.
Proof.
  intros Hrow Hitem. apply lookup_translationsToSave in Hrow as (item' & Hitem' & Ht & Hd & _ & _ & Hh).
  assert (item' = item) as -> by congruence.
  unfold Cli.needs_translation. simpl. rewrite Ht, Hd.
  rewrite !bool_decide_eq_true_2 by done. simpl. rewrite Hh.
  rewrite bool_decide_eq_false_2; [done|].
  intros Heq. apply (f_equal String.length) in Heq.
  unfold coordinator_source_hash in Heq.
  rewrite sha256_hex_length, batch_source_hash_length in Heq. lia.
Qed.

(** ** The query surface *)

(** C10.  Under a locale other than the default, an empty cached
    translation is served like no translation: the hook returns the
    fallback text, and both results of [useViewTranslation] are what
    they are with the key absent from the cache. *)
Theorem empty_translation_is_no_translation (r : Render) (st : ViewState)
    (ct cid fallback : string) :
  locale r ≠ r_defaultLocale r →
  cache st !! cache_key ct cid = Some (Some "") →
  getTranslation r st ct cid fallback = fallback
  ∧ isItemTranslating r st ct cid = isTranslating st
  ∧ useViewTranslation r st ct cid fallback
    = useViewTranslation r (setCache (delete (cache_key ct cid) (cache st)) st)
        ct cid fallback.
Proof.
  intros Hlocale Hcached.
  unfold useViewTranslation, getTranslation, isItemTranslating.
  rewrite !decide_False by done. simpl.
  rewrite Hcached, lookup_delete_eq. simpl.
  by rewrite andb_true_r.
Qed.

Lemma empty_translation_is_no_translation_witness :
  getTranslation Switch.view_kk
    {| cache := {[ "product_title:1" := Some "" ]}; isTranslating := true |}
    "product_title" "1" "Red shoes" = "Red shoes".
Proof.
  apply (empty_translation_is_no_translation Switch.view_kk
           {| cache := {[ "product_title:1" := Some "" ]}; isTranslating := true |}
           "product_title" "1" "Red shoes").
  - vm_compute. discriminate.
  - vm_compute. reflexivity.
Defined.

(** C7.  With the active locale the default one, or with no item, the
    effect ends at once: the cache is emptied, nothing is in flight, and
    the world is as it was, so that no adapter was called.  The hook then
    returns the fallback; under the default locale it does so whatever the
    cache holds. *)
Theorem default_locale_bypass {Ext : Type} (config : AudarConfig)
    (fuel : nat) (r : Render) (st : ViewState) (w : World Ext) :
  locale r = r_defaultLocale r ∨ items r = [] →
  effect r st w = ({| cache := ∅; isTranslating := false |}, None, w)
  ∧ sync config fuel r st w = Some ({| cache := ∅; isTranslating := false |}, w)
  ∧ (∀ ct cid fallback,
       getTranslation r {| cache := ∅; isTranslating := false |} ct cid fallback
       = fallback)
  ∧ (locale r = r_defaultLocale r →
     ∀ st' ct cid fallback, getTranslation r st' ct cid fallback = fallback).
Proof.
  intros Hguard.
  assert (effect r st w = ({| cache := ∅; isTranslating := false |}, None, w)) as Heff.
  { unfold effect. rewrite decide_True; [done|].
    destruct Hguard as [?|Hnil]; [by left|right]. by rewrite Hnil. }
  split; [done|]. split.
  { unfold sync. rewrite Heff. by destruct fuel. }
  split.
  - intros ct cid fallback. unfold getTranslation.
    case_decide; [done|]. simpl. by rewrite lookup_empty.
  - intros Hdefault st' ct cid fallback. unfold getTranslation.
    by rewrite decide_True.
Qed.

Lemma default_locale_bypass_witness :
  sync Switch.config 0
    (render Switch.config "feed" [Switch.item] (Mem.switch_locale "en" Switch.world_de))
    Switch.settled_kk.1 (Mem.switch_locale "en" Switch.world_de)
  = Some ({| cache := ∅; isTranslating := false |},
          Mem.switch_locale "en" Switch.world_de).
Proof.
  apply (default_locale_bypass Switch.config 0
           (render Switch.config "feed" [Switch.item]
              (Mem.switch_locale "en" Switch.world_de))
           Switch.settled_kk.1 (Mem.switch_locale "en" Switch.world_de)).
  left. reflexivity.
Defined.

(** ** Stale records *)

Lemma cachedMap_foldl_ignores_hash (f : CachedRow → string) (rows : list CachedRow)
    (m : gmap string (option string)) :
  foldl (λ m row,
           <[cache_key (content_type row) (content_id row) := translated_text row]> m)
        m (map (λ row, {| content_type := content_type row;
                          content_id := content_id row;
                          translated_text := translated_text row;
                          source_hash := f row |}) rows)
  = foldl (λ m row,
             <[cache_key (content_type row) (content_id row) := translated_text row]> m)
          m rows.
Proof. revert m. induction rows as [|row rows IH]; intros m; simpl; [done|apply IH]. Qed.

(** The coordinator decides between hit and miss without reading
    [source_hash]: replacing the hashes of the rows the store returned
    changes nothing. *)
Lemma cachedMap_ignores_hash (f : CachedRow → string) (rows : list CachedRow) :
  cachedMap (map (λ row, {| content_type := content_type row;
                            content_id := content_id row;
                            translated_text := translated_text row;
                            source_hash := f row |}) rows)
  = cachedMap rows.
Proof. apply cachedMap_foldl_ignores_hash. Qed.

(** The batch engine does compare the hashes: an item whose first row in
    the store's answer has another hash is a gap for every target locale. *)
Lemma stale_record_is_gap (cachedTranslations : list CachedRow)
    (targetLocales : list string) (item : DiscoveredContent) (cached : CachedRow) :
  List.find (λ c, bool_decide (content_type c = dc_contentType item)
                  && bool_decide (content_id c = dc_contentId item))
            cachedTranslations = Some cached →
  source_hash cached ≠ dc_sourceHash item →
  targetLocales ≠ [] →
  ∃ gap, Cli.gap_of cachedTranslations targetLocales item = Some gap
    ∧ missingLocales gap = targetLocales.
Proof.
  intros Hfind Hhash Hlocales. unfold Cli.gap_of, Cli.needs_translation.
  rewrite Hfind, bool_decide_eq_false_2 by done. simpl.
  assert (List.filter (λ _ : string, true) targetLocales = targetLocales) as ->.
  { induction targetLocales as [|l ls IH]; simpl; [done|].
    destruct ls; [done|]. by rewrite IH. }
  rewrite decide_True; [eauto|]. destruct targetLocales; simpl; [done|lia].
Qed.

(** C1 fails on the coordinator.  The store holds a translation made from
    ["Old title"]; the item reads ["New title"] now.  The batch engine
    reports the item as a gap; the coordinator counts the record as a hit,
    never calls the provider, leaves the record as it is and serves the old
    translation. *)
Theorem stale_record_served :
  sv_source_hash Stale.record ≠ batch_source_hash (text Stale.item)
  ∧ sv_source_hash Stale.record ≠ coordinator_source_hash (text Stale.item)
  ∧ (∃ gaps w, Cli.findTranslationGaps Mem.store [Cli.content_of Stale.item]
                 ["kk"] None Stale.world = (Ok gaps, w)
               ∧ missingLocales <$> gaps = [["kk"]])
  ∧ ∃ st w, sync Stale.config 4 Stale.view initial Stale.world = Some (st, w)
      ∧ calls w = [(CallGetCached [Stale.item] (Some "kk"), true)]
      ∧ Mem.rows (ext w) = Mem.rows Stale.store
      ∧ getTranslation Stale.view st "product_title" "1" "New title" = "Eski atau".
Proof.
  split; [by vm_compute|]. split; [by vm_compute|]. split.
  - do 2 eexists. split; vm_compute; reflexivity.
  - do 2 eexists. split; [vm_compute; reflexivity|].
    repeat split; vm_compute; reflexivity.
Qed.

(** ** Locale switches *)

(** Entering a cycle for a locale other than the default leaves the cache
    as the last cycle left it. *)
Lemma effect_keeps_cache {Ext : Type} (r : Render) (st : ViewState) (w : World Ext) :
  locale r ≠ r_defaultLocale r → items r ≠ [] →
  ∃ st' p, effect r st w = (st', Some p, w) ∧ cache st' = cache st.
Proof.
  intros Hlocale Hitems. unfold effect.
  rewrite decide_False.
  2:{ intros [?|Hlen]; [done|]. by destruct (items r). }
  unfold translateView.
  destruct (localStorage w !! metadataKey r) as [metadata|]; [case_decide|];
    eauto.
Qed.

(** C2 fails on the code.  The view was synchronised under ["kk"] and the
    locale is ["de"] now.  The render that follows the switch shows the
    ["kk"] text; the effect of that render starts the cycle for ["de"] with
    the cache untouched, so the text stays while the cycle is in flight; and
    when that cycle fails it stays for good. *)
Theorem stale_locale_shown_after_switch :
  locale Switch.view_kk = "kk" ∧ locale Switch.view_de = "de"
  ∧ getTranslation Switch.view_kk Switch.settled_kk.1 "product_title" "1" "Red shoes"
    = "[kk] Red shoes"
  ∧ getTranslation Switch.view_de Switch.settled_kk.1 "product_title" "1" "Red shoes"
    = "[kk] Red shoes"
  ∧ (∃ st p, effect Switch.view_de Switch.settled_kk.1 Switch.world_de
             = (st, Some p, Switch.world_de)
       ∧ cache st = cache Switch.settled_kk.1
       ∧ getTranslation Switch.view_de st "product_title" "1" "Red shoes"
         = "[kk] Red shoes")
  ∧ (∃ st w, sync Switch.config_flaky 4 Switch.view_de Switch.settled_kk.1
               Switch.world_de = Some (st, w)
       ∧ getTranslation Switch.view_de st "product_title" "1" "Red shoes"
         = "[kk] Red shoes").
Proof.
  split; [reflexivity|]. split; [reflexivity|].
  split; [vm_compute; reflexivity|]. split; [vm_compute; reflexivity|]. split.
  - do 2 eexists. split; [vm_compute; reflexivity|].
    split; vm_compute; reflexivity.
  - do 2 eexists. split; vm_compute; reflexivity.
Qed.

(** ** Replies of the wrong length *)

Lemma lookup_rows_of_batch (locale' : string) (batch : list TranslationGap)
    (translations : list string) (i : nat) (g : TranslationGap) :
  batch !! i = Some g →
  Cli.rows_of_batch locale' batch translations !! i
  = Some {| sv_content_type := gap_contentType g; sv_content_id := gap_contentId g;
            sv_locale := locale'; sv_original_text := gap_text g;
            sv_translated_text := translations !! i;
            sv_source_hash := gap_sourceHash g |}.
Proof. intros Hg. unfold Cli.rows_of_batch. by rewrite list_lookup_imap, Hg. Qed.




(** ** Batches *)

(** For a start that is not negative and a size that is not negative,
    [slice] takes the items from the start on, up to the size. *)
Lemma slice_take_drop {A} (l : list A) (i n : nat) :
  slice (Z.of_nat i) (Z.of_nat i + Z.of_nat n) l = take n (drop i l).
Proof.
  unfold slice. cbv zeta. do 2 (destruct (decide _) as [|_]; [lia|]).
  destruct (decide (i ≤ length l)%nat) as [Hi|Hi].
  - rewrite (Z.min_l (Z.of_nat i)) by lia. rewrite Nat2Z.id.
    destruct (decide (i + n ≤ length l)%nat) as [Hn|Hn].
    + rewrite Z.min_l by lia. f_equal. lia.
    + rewrite Z.min_r by lia. rewrite !take_ge; [done|rewrite length_drop; lia..].
  - rewrite !Z.min_r by lia. rewrite Z.sub_diag. simpl.
    rewrite (drop_ge l i) by lia. by rewrite take_nil.
Qed.

Lemma floor_div_turn (j batchSize' : nat) :
  0 < batchSize' →
  succ (floor_div (Z.of_nat (j * batchSize')) (Z.of_nat batchSize'))
  = Int (Z.of_nat (j + 1)).
Proof.
  intros Hpos. unfold floor_div. rewrite decide_False by lia. simpl. f_equal.
  rewrite Nat2Z.inj_mul, Z.div_mul by lia. lia.
Qed.

(** [Math.ceil] counts the batches. *)
Lemma ceil_div_batch_count (its : list TranslationGap) (batchSize' : nat) :
  0 < batchSize' →
  ceil_div (Z.of_nat (length its)) (Z.of_nat batchSize')
  = Int (Z.of_nat (batch_count its batchSize')).
Proof.
  intros Hpos. unfold ceil_div, batch_count. rewrite decide_False by lia. f_equal.
  rewrite Nat2Z.inj_div, Nat2Z.inj_sub, Nat2Z.inj_add by lia.
  set (a := Z.of_nat (length its)). set (b := Z.of_nat batchSize').
  assert (0 < b)%Z as Hb by lia. assert (0 ≤ a)%Z as Ha by lia.
  clearbody a b.
  pose proof (Z.div_mod (a + b - Z.of_nat 1) b ltac:(lia)) as Hdm.
  pose proof (Z.mod_pos_bound (a + b - Z.of_nat 1) b Hb) as Hr.
  symmetry. apply Z.opp_inj. rewrite Z.opp_involutive.
  apply (Z.div_unique_pos _ _ _ (b - 1 - (a + b - Z.of_nat 1) `mod` b)); lia.
Qed.

Section Batches.
Context {Ext : Type}.
Variable db : DatabaseAdapter Ext.
Variable provider : LLMProvider Ext.
Variable its : list TranslationGap.
Variable locale' sourceLocale' : string.
Variable batchSize' : nat.
Variable batches : Num.
Hypothesis batchSize_pos : 0 < batchSize'.

(** One turn of the loop, for a batch size of at least one: the turn that
    starts at [j * batchSize'] handles the [j]-th batch. *)
Lemma batch_loop_turn (fuel j total : nat) (w : World Ext) :
  j * batchSize' < length its →
  Cli.batch_loop db provider (Datatypes.S fuel) its locale' sourceLocale'
    (Z.of_nat batchSize') batches (Z.of_nat (j * batchSize')) total w
  = match Cli.translate_one db provider locale' sourceLocale'
            (Int (Z.of_nat (j + 1))) batches (nth_batch its batchSize' j) w with
    | (Ok n, w') =>
        Cli.batch_loop db provider fuel its locale' sourceLocale'
          (Z.of_nat batchSize') batches (Z.of_nat (Datatypes.S j * batchSize'))
          (total + n) w'
    | (Throw e, w') => Some (Throw e, w')
    end.
Proof.
  intros Hj. cbn [Cli.batch_loop]. rewrite decide_True by lia.
  rewrite slice_take_drop, floor_div_turn by done.
  fold (nth_batch its batchSize' j). unfold bindP, ended.
  replace (Z.of_nat (j * batchSize') + Z.of_nat batchSize')%Z
    with (Z.of_nat (Datatypes.S j * batchSize')) by lia.
  by destruct (Cli.translate_one _ _ _ _ _ _ _ w) as [[n|e] w'].
Qed.

(** The loop ends when the batches are used up, whatever turns are left. *)
Lemma batch_loop_end (fuel j total : nat) (w : World Ext) :
  (length its ≤ j * batchSize')%nat →
  Cli.batch_loop db provider fuel its locale' sourceLocale'
    (Z.of_nat batchSize') batches (Z.of_nat (j * batchSize')) total w
  = Some (Ok total, w).
Proof. intros Hj. destruct fuel; cbn [Cli.batch_loop]; by rewrite decide_False by lia. Qed.

(** A turn in which both calls return. *)
Lemma translate_one_through (batchNumber : Num) (batch : list TranslationGap)
    (w : World Ext) (translations : list string) (s1 s2 : Ext) :
  translateBatch provider (map Cli.item_of_gap batch) sourceLocale' locale' (ext w)
  = (Ok translations, s1) →
  saveTranslations db (Cli.rows_of_batch locale' batch translations) s1 = (Ok (), s2) →
  Cli.translate_one db provider locale' sourceLocale' batchNumber batches batch w
  = (Ok (length translations),
     {| ext := s2;
        calls := calls w ++
          [(CallTranslate (map Cli.item_of_gap batch) sourceLocale' locale', true);
           (CallSave (Cli.rows_of_batch locale' batch translations), true)];
        console := console w ++
          [LineBatch batchNumber batches (length batch);
           LineBatchSaved batchNumber batches (length translations)];
        localStorage := localStorage w; now := now w |}).
Proof.
  intros Htranslate Hsave.
  unfold Cli.translate_one, rethrowing, bind, invoke, print, ret. simpl.
  rewrite Htranslate. simpl. rewrite Hsave. simpl. by rewrite <- !app_assoc.
Qed.

(** The loop follows the batches that go through and stops at the first
    provider call that throws, with the error of that call. *)
Lemma batch_loop_aborts (n : nat) :
  ∀ (j total : nat) (w : World Ext) (s1 s2 : Ext) (e : string),
    (j + n) * batchSize' < length its →
    saved_through db provider its locale' sourceLocale' batchSize' n j (ext w)
    = Some s1 →
    translateBatch provider
      (map Cli.item_of_gap (nth_batch its batchSize' (j + n))) sourceLocale' locale' s1
    = (Throw e, s2) →
    ∃ w', ext w' = s2
      ∧ ∀ fuel, n < fuel →
          Cli.batch_loop db provider fuel its locale' sourceLocale'
            (Z.of_nat batchSize') batches (Z.of_nat (j * batchSize')) total w
          = Some (Throw e, w').
Proof.
  induction n as [|n IH]; intros j total w s1 s2 e Hlen Hsaved Hfail;
    simpl in Hsaved.
  - injection Hsaved as <-. rewrite Nat.add_0_r in Hlen, Hfail.
    eexists. split; [|intros [|fuel] Hfuel; [lia|]; rewrite batch_loop_turn by done;
      unfold Cli.translate_one, rethrowing, bind, invoke, print; simpl;
      rewrite Hfail; reflexivity].
    reflexivity.
  - destruct (translateBatch provider _ sourceLocale' locale' (ext w))
      as [[translations|e'] sa] eqn:Htranslate; [|done].
    destruct (saveTranslations db _ sa) as [[[]|e'] sb] eqn:Hsave; [|done].
    edestruct (IH (Datatypes.S j) (total + length translations)
                 {| ext := sb;
                    calls := calls w ++
                      [(CallTranslate (map Cli.item_of_gap (nth_batch its batchSize' j))
                          sourceLocale' locale', true);
                       (CallSave (Cli.rows_of_batch locale'
                                    (nth_batch its batchSize' j) translations), true)];
                    console := console w ++
                      [LineBatch (Int (Z.of_nat (j + 1))) batches
                         (length (nth_batch its batchSize' j));
                       LineBatchSaved (Int (Z.of_nat (j + 1))) batches
                         (length translations)];
                    localStorage := localStorage w; now := now w |} s1 s2 e)
      as (w' & Hext & Hrun).
    + by replace (Datatypes.S j + n) with (j + Datatypes.S n) by lia.
    + exact Hsaved.
    + by replace (Datatypes.S j + n) with (j + Datatypes.S n) by lia.
    + exists w'. split; [done|]. intros [|fuel] Hfuel; [lia|].
      rewrite batch_loop_turn by nia.
      rewrite (translate_one_through _ _ _ _ _ _ Htranslate Hsave).
      apply Hrun. lia.
Qed.

Variable present : Ext → string * string * string → Prop.
Hypothesis contract : StoreContract db provider present.

(** What the batches that went through have saved is in the store, and
    so is what was there before. *)
Lemma saved_through_present (n : nat) :
  ∀ (j : nat) (s s1 : Ext),
    saved_through db provider its locale' sourceLocale' batchSize' n j s = Some s1 →
    (∀ k, present s k → present s1 k)
    ∧ ∀ i g, j ≤ i < j + n → g ∈ nth_batch its batchSize' i →
        present s1 (gap_contentType g, gap_contentId g, locale').
Proof.
  induction n as [|n IH]; intros j s s1 Hsaved; simpl in Hsaved.
  - injection Hsaved as <-. split; [done|]. intros; lia.
  - destruct (translateBatch provider _ sourceLocale' locale' s)
      as [[translations|e'] sa] eqn:Htranslate; [|done].
    destruct (saveTranslations db _ sa) as [[[]|e'] sb] eqn:Hsave; [|done].
    destruct (IH _ _ _ Hsaved) as [Hkeep Hlater]. split.
    + intros k Hk. apply Hkeep.
      eapply (save_keeps _ _ _ contract); [exact Hsave|].
      by eapply (translate_keeps _ _ _ contract).
    + intros i g Hi Hg. destruct (decide (i = j)) as [->|Hne].
      * apply Hkeep. apply list_elem_of_lookup_1 in Hg as [m Hm].
        pose proof (lookup_rows_of_batch locale' _ translations _ _ Hm) as Hrow.
        apply list_elem_of_lookup_2 in Hrow.
        by apply (save_presents _ _ _ contract _ _ _ _ Hsave Hrow).
      * apply (Hlater i g); [lia|done].
Qed.
End Batches.

Lemma upsert_keeps (m : gmap (string * string * string) SaveRow)
    (saved : list SaveRow) (k : string * string * string) :
  is_Some (m !! k) → is_Some (Mem.upsert m saved !! k).
Proof.
  revert m. induction saved as [|r saved IH]; intros m Hk; simpl; [done|].
  apply IH. rewrite lookup_insert. case_decide; eauto.
Qed.

Lemma upsert_presents (m : gmap (string * string * string) SaveRow)
    (saved : list SaveRow) (row : SaveRow) :
  row ∈ saved → is_Some (Mem.upsert m saved !! Mem.row_key row).
Proof.
  revert m. induction saved as [|r saved IH]; intros m Hrow; [by inv Hrow|].
  inv Hrow; simpl.
  - apply upsert_keeps. rewrite lookup_insert_eq. eauto.
  - by apply IH.
Qed.

(** The store of [Mem] keeps the contract, whatever the provider answers. *)
Lemma Mem_contract answer :
  StoreContract Mem.store (Mem.provider answer) Abort.present.
Proof.
  split.
  - intros saved s s' row [= <-] Hrow. by apply (upsert_presents _ _ row).
  - intros saved s res s' k [= <- <-] Hk. by apply upsert_keeps.
  - intros its src tgt s res s' k [= <- <-] Hk. exact Hk.
Qed.

(** C8.  Let the gaps of a locale be cut into batches of [batchSize'], let
    the batches before batch [k] (counted from 0) go through and the
    provider throw [e] on batch [k].  Then the run for the locale, given
    more than [k] turns, ends with [e], the outside is left as that call of
    the provider left it, and, for a store that keeps its contract, every
    record of the batches before [k], and every record that was there before
    the run, is in the store. *)
Theorem partial_progress_kept {Ext : Type}
    (db : DatabaseAdapter Ext) (provider : LLMProvider Ext)
    (present : Ext → string * string * string → Prop)
    (gaps : list TranslationGap) (locale' sourceLocale' : string)
    (batchSize' k : nat) (w : World Ext) (s1 s2 : Ext) (e : string) :
  StoreContract db provider present →
  0 < batchSize' →
  k * batchSize' < length (Cli.itemsForLocale gaps locale') →
  saved_through db provider (Cli.itemsForLocale gaps locale') locale' sourceLocale'
    batchSize' k 0 (ext w) = Some s1 →
  translateBatch provider
    (map Cli.item_of_gap (nth_batch (Cli.itemsForLocale gaps locale') batchSize' k))
    sourceLocale' locale' s1 = (Throw e, s2) →
  ∃ w', (∀ fuel, k < fuel →
           Cli.translateBatch db provider fuel gaps locale' sourceLocale'
             (Z.of_nat batchSize') w = Some (Throw e, w'))
    ∧ ext w' = s2
    ∧ (∀ j g, j < k → g ∈ nth_batch (Cli.itemsForLocale gaps locale') batchSize' j →
         present s2 (gap_contentType g, gap_contentId g, locale'))
    ∧ (∀ key, present (ext w) key → present s2 key).
Proof.
  intros Hcontract Hpos Hlen Hsaved Hfail.
  set (its := Cli.itemsForLocale gaps locale') in *.
  destruct (saved_through_present db provider its locale' sourceLocale' batchSize'
              Hpos present Hcontract k 0 (ext w) s1 Hsaved) as [Hkeep Hbatches].
  destruct (batch_loop_aborts db provider its locale' sourceLocale' batchSize'
              (ceil_div (Z.of_nat (length its)) (Z.of_nat batchSize')) Hpos
              k 0 0
              {| ext := ext w; calls := calls w;
                 console := console w ++ [LineTranslating locale'];
                 localStorage := localStorage w; now := now w |}
              s1 s2 e) as (w' & Hext & Hrun); [done..|].
  exists w'. split; [|split; [done|split]].
  - intros fuel Hfuel. unfold Cli.translateBatch. fold its.
    rewrite decide_False by lia. unfold bindP at 1, ended at 1, print at 1.
    by apply Hrun.
  - intros j g Hj Hg. eapply (translate_keeps _ _ _ Hcontract); [exact Hfail|].
    apply (Hbatches j g); [lia|done].
  - intros key Hkey. eapply (translate_keeps _ _ _ Hcontract); [exact Hfail|].
    by apply Hkeep.
Qed.

Lemma partial_progress_kept_witness :
  ∃ w', Cli.translateBatch Mem.store Switch.flaky 3 Abort.gaps "kk" "en" 1 Abort.world
        = Some (Throw "503 Service Unavailable", w')
    ∧ is_Some (Mem.rows (ext w') !! ("product_title", "1", "kk")).
Proof.
  edestruct (partial_progress_kept Mem.store Switch.flaky Abort.present Abort.gaps
               "kk" "en" 1 1 Abort.world) as (w' & Hrun & Hext & Hsaved & _).
  - apply Mem_contract.
  - lia.
  - vm_compute. lia.
  - vm_compute. reflexivity.
  - vm_compute. reflexivity.
  - exists w'. split; [apply (Hrun 3); lia|]. rewrite Hext.
    apply (Hsaved 0 (Abort.gap "1" "Red shoes")); [lia|]. vm_compute. left.
Defined.

(** ** Dry runs *)

Section Frame.
Context {Ext : Type}.
Variable db : DatabaseAdapter Ext.

Lemma only_read_refl w : only_read db w w.
Proof.
  split; [|done]. exists []. by rewrite app_nil_r.
Qed.

Lemma only_read_trans w1 w2 w3 :
  only_read db w1 w2 → only_read db w2 w3 → only_read db w1 w3.
Proof.
  intros ([n1 [Hc1 Hr1]] & Hl1 & He1) ([n2 [Hc2 Hr2]] & Hl2 & He2).
  split; [|split].
  - exists (n1 ++ n2). rewrite Hc2, Hc1, app_assoc. split; [done|].
    by apply Forall_app.
  - congruence.
  - intros Hpure. rewrite He2, He1; done.
Qed.

Lemma only_read_print l w : only_read db w (print l w).2.
Proof. split; [|done]. exists []. simpl. by rewrite app_nil_r. Qed.

Lemma only_read_for_each {A} (l : list A) (f : A → Line) w :
  ∃ w', Cli.for_each l (λ x, print (f x)) w = (Ok (), w')
    ∧ console w' = console w ++ map f l
    ∧ only_read db w w'.
Proof.
  revert w. induction l as [|x l IH]; intros w; simpl.
  - exists w. split; [done|]. split; [by rewrite app_nil_r|]. apply only_read_refl.
  - unfold bind. simpl.
    destruct (IH (print (f x) w).2) as (w' & Hrun & Hconsole & Hread).
    simpl in Hrun. exists w'. split; [exact Hrun|]. split.
    + rewrite Hconsole. simpl. by rewrite <- app_assoc.
    + eapply only_read_trans; [apply only_read_print|done].
Qed.

Lemma only_read_invoke {A} (c : Call) (f : Ext → result A * Ext) w :
  read_only c = true → (reads_pure db → (f (ext w)).2 = ext w) →
  only_read db w (invoke c f w).2.
Proof.
  intros Hc Hpure. unfold invoke.
  destruct (f (ext w)) as [r s] eqn:Hcall. simpl in *.
  split; [|split; [done|exact Hpure]].
  exists [(c, is_ok r)]. split; [done|]. by repeat constructor.
Qed.

Lemma only_read_discoverContent config w :
  only_read db w (Cli.discoverContent db config w).2.
Proof.
  unfold Cli.discoverContent. unfold bind at 1. cbn [print].
  set (w0 := {| ext := ext w; calls := calls w;
                console := console w ++ [LineDiscovering];
                localStorage := localStorage w; now := now w |}).
  apply (only_read_trans w w0); [apply (only_read_print LineDiscovering w)|].
  destruct (getAllTranslatableContent db) as [discover|] eqn:Hdiscover;
    [|apply only_read_refl].
  unfold bind at 1.
  pose proof (only_read_invoke (CallDiscover (Cli.contentSources config))
                (discover (Cli.contentSources config)) w0 eq_refl) as Hcall.
  destruct (invoke _ _ w0) as [[found|e] w1]; simpl in Hcall |- *.
  2:{ apply Hcall. intros [_ Hpure]. by apply Hpure. }
  apply (only_read_trans w0 w1).
  { apply Hcall. intros [_ Hpure]. by apply Hpure. }
  unfold bind at 1. cbn [print].
  match goal with
  | |- only_read _ _ (bind (Cli.for_each ?l _) _ ?w2).2 =>
      destruct (only_read_for_each l (λ entry, LineTypeCount entry.1 entry.2) w2)
        as (w3 & Hrun & _ & Hread);
      apply (only_read_trans w1 w2); [apply (only_read_print _ w1)|];
      unfold bind; rewrite Hrun; exact Hread
  end.
Qed.

Lemma only_read_findTranslationGaps content locales' targetLocale w :
  only_read db w (Cli.findTranslationGaps db content locales' targetLocale w).2.
Proof.
  unfold Cli.findTranslationGaps. unfold bind at 1. cbn [print].
  set (w0 := {| ext := ext w; calls := calls w;
                console := console w ++ [LineFindingGaps];
                localStorage := localStorage w; now := now w |}).
  apply (only_read_trans w w0); [apply (only_read_print LineFindingGaps w)|].
  set (asked := map Cli.item_of_content content).
  set (l := head (Cli.target_locales locales' targetLocale)).
  unfold bind at 1.
  pose proof (only_read_invoke (CallGetCached asked l)
                (getCachedTranslations db asked l) w0 eq_refl) as Hcall.
  destruct (invoke _ _ w0) as [[cached|e] w1]; simpl in Hcall |- *.
  2:{ apply Hcall. intros [Hpure _]. by apply Hpure. }
  apply (only_read_trans w0 w1).
  { apply Hcall. intros [Hpure _]. by apply Hpure. }
  unfold bind at 1. cbn [print].
  match goal with
  | |- only_read _ _ (bind (Cli.for_each ?l _) _ ?w2).2 =>
      destruct (only_read_for_each l (λ entry, LineLocaleMissing entry.1 entry.2) w2)
        as (w3 & Hrun & _ & Hread);
      apply (only_read_trans w1 w2); [apply (only_read_print _ w1)|];
      unfold bind; rewrite Hrun; exact Hread
  end.
Qed.
End Frame.

(** C9 fails on the code in its second half.  A dry run does make no
    provider call and no store write, but the numbers it reports are not
    the gaps of each locale: the store is asked for the first target locale
    only, and its answer is taken for every locale.  In a store that holds a
    current record under ["kk"] for both items and none under ["de"], a dry
    run for the locales ["kk"] and ["de"] reports that there are no gaps,
    and a dry run for ["de"] and ["kk"] reports two gaps for ["kk"]; and in
    the store of [DryRun], where neither item has a record under ["de"], one
    gap is reported for ["de"]. *)
Theorem dry_run_miscounts :
  Forall (λ item,
            (∃ r, Mem.rows Counts.store !! (contentType item, contentId item, "kk")
                  = Some r
                  ∧ sv_source_hash r = batch_source_hash (text item))
            ∧ Mem.rows Counts.store !! (contentType item, contentId item, "de") = None
            ∧ Mem.rows DryRun.store !! (contentType item, contentId item, "de") = None)
         [DryRun.item1; DryRun.item2]
  ∧ (∃ w, Cli.runTranslation Mem.store Mem.tagging 0 DryRun.config DryRun.options
            Counts.world = Some (Ok (), w)
       ∧ console w
         = [LineBanner; LineDiscovering; LineFound 2;
            LineTypeCount "product_title" (Times 2);
            LineFindingGaps; LineGaps 0; LineNoGaps]
       ∧ calls w
         = [(CallDiscover [], true);
            (CallGetCached [DryRun.item1; DryRun.item2] (Some "kk"), true)]
       ∧ ext w = Counts.store)
  ∧ (∃ w, Cli.runTranslation Mem.store Mem.tagging 0 Counts.config_de_kk
            DryRun.options Counts.world = Some (Ok (), w)
       ∧ console w
         = [LineBanner; LineDiscovering; LineFound 2;
            LineTypeCount "product_title" (Times 2);
            LineFindingGaps; LineGaps 2;
            LineLocaleMissing "de" (Times 2); LineLocaleMissing "kk" (Times 2);
            LineDryRunNotice; LineDryRun 2;
            LineDryRunLocale "de" 2; LineDryRunLocale "kk" 2]
       ∧ calls w
         = [(CallDiscover [], true);
            (CallGetCached [DryRun.item1; DryRun.item2] (Some "de"), true)]
       ∧ ext w = Counts.store)
  ∧ (∃ w, Cli.runTranslation Mem.store Mem.tagging 0 DryRun.config DryRun.options
            DryRun.world = Some (Ok (), w)
       ∧ console w
         = [LineBanner; LineDiscovering; LineFound 2;
            LineTypeCount "product_title" (Times 2);
            LineFindingGaps; LineGaps 1;
            LineLocaleMissing "kk" (Times 1); LineLocaleMissing "de" (Times 1);
            LineDryRunNotice; LineDryRun 1;
            LineDryRunLocale "kk" 1; LineDryRunLocale "de" 1]
       ∧ calls w
         = [(CallDiscover [], true);
            (CallGetCached [DryRun.item1; DryRun.item2] (Some "kk"), true)]
       ∧ ext w = DryRun.store).
Proof.
  split.
  { repeat constructor; try (vm_compute; reflexivity);
      eexists; split; vm_compute; reflexivity. }
  split; [|split]; eexists; (split; [vm_compute; reflexivity|]);
    repeat split; vm_compute; reflexivity.
Qed.

(** ** Fuel *)

(** A cycle that has ended within [fuel] resumptions ends the same way
    within more. *)
Lemma run_more_fuel {Ext : Type} (config : AudarConfig) (fuel fuel' : nat)
    (x : ViewState * option Pending * World Ext) (end_ : ViewState * World Ext) :
  run config fuel x = Some end_ → (fuel ≤ fuel')%nat →
  run config fuel' x = Some end_.
Proof.
  revert fuel' x. induction fuel as [|fuel IH]; intros fuel' [[st [p|]] w] Hrun Hle;
    simpl in Hrun; try done; try (by destruct fuel').
  destruct fuel' as [|fuel']; [lia|]. simpl. apply IH; [done|lia].
Qed.

(** A loop over batches that has ended within [fuel] turns ends the same
    way within more, whatever the batch size. *)
Lemma batch_loop_more_fuel {Ext : Type} (db : DatabaseAdapter Ext)
    (provider : LLMProvider Ext) (its : list TranslationGap)
    (locale' sourceLocale' : string) (batchSize' : Z) (batches : Num) (fuel : nat) :
  ∀ (fuel' : nat) (i : Z) (total : nat) (w : World Ext) (out : result nat * World Ext),
    Cli.batch_loop db provider fuel its locale' sourceLocale' batchSize' batches
      i total w = Some out →
    (fuel ≤ fuel')%nat →
    Cli.batch_loop db provider fuel' its locale' sourceLocale' batchSize' batches
      i total w = Some out.
Proof.
  induction fuel as [|fuel IH]; intros fuel' i total w out Hrun Hle;
    cbn [Cli.batch_loop] in Hrun.
  - case_decide as Hi; [done|]. destruct fuel'; cbn [Cli.batch_loop];
      by rewrite decide_False by done.
  - destruct fuel' as [|fuel']; [lia|]. cbn [Cli.batch_loop].
    case_decide as Hi; [|done]. unfold bindP, ended in Hrun |- *.
    destruct (Cli.translate_one db provider _ _ _ _ _ w) as [[n|e] w']; [|done].
    apply IH; [done|lia].
Qed.

Lemma translateBatch_more_fuel {Ext : Type} (db : DatabaseAdapter Ext)
    (provider : LLMProvider Ext) (gaps : list TranslationGap)
    (locale' sourceLocale' : string) (batchSize' : Z) (fuel fuel' : nat)
    (w : World Ext) (out : result nat * World Ext) :
  Cli.translateBatch db provider fuel gaps locale' sourceLocale' batchSize' w
  = Some out →
  (fuel ≤ fuel')%nat →
  Cli.translateBatch db provider fuel' gaps locale' sourceLocale' batchSize' w
  = Some out.
Proof.
  unfold Cli.translateBatch. case_decide; [done|].
  unfold bindP, ended, print. intros Hrun Hle.
  by eapply batch_loop_more_fuel.
Qed.

(** ** Hits *)

Lemma partition_items_foldl_hits (m : gmap string (option string))
    (its : list TranslationItem)
    (acc : gmap string (option string) * list TranslationItem) :
  Forall (λ item,
            truthy (mjoin (m !! cache_key (contentType item) (contentId item))) = true)
         its →
  (foldl (λ acc item,
            let key := cache_key (contentType item) (contentId item) in
            let cached := mjoin (m !! key) in
            if truthy cached then (<[key := cached]> acc.1, acc.2)
            else (acc.1, acc.2 ++ [item]))
         acc its).2 = acc.2.
Proof.
  revert acc. induction its as [|item its IH]; intros acc Hits; simpl; [done|].
  apply Forall_cons in Hits as [Hitem Hits]. rewrite Hitem, IH; done.
Qed.

(** When the store returns a non-empty translation for every item, the
    coordinator has nothing to translate, whatever the hashes of the rows. *)
Lemma all_hits_nothing_to_translate (rows : list CachedRow)
    (its : list TranslationItem) :
  Forall (λ item,
            truthy (mjoin (cachedMap rows
                             !! cache_key (contentType item) (contentId item))) = true)
         its →
  (partition_items (cachedMap rows) its).2 = [].
Proof. intros Hits. unfold partition_items. by rewrite partition_items_foldl_hits. Qed.

(** * Further properties of the code *)

(** ** The coordinator's dictionaries *)

Lemma cachedMap_snoc (rows : list CachedRow) (r : CachedRow) :
  cachedMap (rows ++ [r])
  = <[cache_key (content_type r) (content_id r) := translated_text r]> (cachedMap rows).
Proof. unfold cachedMap. by rewrite foldl_app. Qed.

(** X1.  The dictionary built from the store's answer maps a key to the
    translation of the last row of the answer with that key, and holds no
    other key. *)
Theorem cachedMap_lookup_last (rows : list CachedRow) (k : string) :
  cachedMap rows !! k
  = translated_text
      <$> List.find (λ r, bool_decide (cache_key (content_type r) (content_id r) = k))
                    (reverse rows).
Proof.
  induction rows as [|r rows IH] using rev_ind; [done|].
  rewrite cachedMap_snoc, reverse_app. simpl.
  rewrite lookup_insert. case_decide as Hk.
  - by rewrite bool_decide_eq_true_2.
  - by rewrite bool_decide_eq_false_2.
Qed.

Lemma partition_items_foldl (m : gmap string (option string))
    (its : list TranslationItem)
    (acc : gmap string (option string) * list TranslationItem) (k : string) :
  let out :=
    foldl (λ acc item,
             let key := cache_key (contentType item) (contentId item) in
             let cached := mjoin (m !! key) in
             if truthy cached then (<[key := cached]> acc.1, acc.2)
             else (acc.1, acc.2 ++ [item]))
          acc its in
  out.2 = acc.2 ++ List.filter
            (λ item, negb (truthy (mjoin (m !! cache_key (contentType item) (contentId item)))))
            its
  ∧ out.1 !! k
    = if decide (Exists (λ item, cache_key (contentType item) (contentId item) = k) its
                 ∧ truthy (mjoin (m !! k)) = true)
      then Some (mjoin (m !! k)) else acc.1 !! k.
Proof.
  revert acc. induction its as [|item its IH]; intros acc; cbn [foldl List.filter].
  - split; [by rewrite app_nil_r|].
    destruct (decide _) as [[H _]|]; [by apply Exists_nil in H|done].
  - set (key := cache_key (contentType item) (contentId item)).
    cbv zeta.
    destruct (IH (if truthy (mjoin (m !! key))
                  then (<[key := mjoin (m !! key)]> acc.1, acc.2)
                  else (acc.1, acc.2 ++ [item]))) as [IH2 IH1].
    cbv zeta in IH1, IH2. fold key. rewrite IH1, IH2. clear IH IH1 IH2.
    destruct (truthy (mjoin (m !! key))) eqn:Hhit; cbn [fst snd negb].
    + split; [done|]. rewrite lookup_insert.
      destruct (decide (Exists _ its ∧ _)) as [[Hex Hk]|Hno];
        destruct (decide (Exists _ (item :: its) ∧ _)) as [[Hex' Hk']|Hno'];
        try done.
      * exfalso. apply Hno'. split; [by right|done].
      * case_decide as Hkey; [by subst k|]. exfalso. apply Hno. split; [|done].
        apply Exists_cons in Hex' as [?|?]; done.
      * case_decide as Hkey; [|done]. subst k. exfalso. apply Hno'.
        split; [by left|done].
    + split; [by rewrite <- app_assoc|].
      destruct (decide (Exists _ its ∧ _)) as [[Hex Hk]|Hno];
        destruct (decide (Exists _ (item :: its) ∧ _)) as [[Hex' Hk']|Hno'];
        try done.
      * exfalso. apply Hno'. split; [by right|done].
      * exfalso. apply Hno. split; [|done].
        apply Exists_cons in Hex' as [Hkey|?]; [|done].
        fold key in Hkey. subst k. by rewrite Hhit in Hk'.
Qed.

(** X2.  The items handed to the provider are the items for which the
    store's answer has no non-empty translation, in the caller's order and
    with repetitions kept; the new cache holds the answer's translation for
    the keys of the other items and nothing else. *)
Theorem partition_items_spec (m : gmap string (option string))
    (its : list TranslationItem) :
  (partition_items m its).2
  = List.filter
      (λ item, negb (truthy (mjoin (m !! cache_key (contentType item) (contentId item)))))
      its
  ∧ ∀ k, (partition_items m its).1 !! k
         = if decide (Exists (λ item, cache_key (contentType item) (contentId item) = k) its
                      ∧ truthy (mjoin (m !! k)) = true)
           then Some (mjoin (m !! k)) else None.
Proof.
  split.
  - apply (partition_items_foldl m its (∅, []) "").
  - intros k. destruct (partition_items_foldl m its (∅, []) k) as [_ H].
    cbv zeta in H. cbn [fst] in H. rewrite lookup_empty in H. exact H.
Qed.

(** ** Cycles of the coordinator *)

Lemma run_done {Ext : Type} (config : AudarConfig) (fuel : nat)
    (st : ViewState) (w : World Ext) :
  run config fuel (st, None, w) = Some (st, w).
Proof. by destruct fuel. Qed.

Lemma truthy_js_or (v : option string) (fallback : string) :
  truthy v = true → Some (js_or v fallback) = v.
Proof.
  destruct v as [s|]; simpl; [|done].
  destruct (String.eqb s ""); [done|done].
Qed.

Lemma falsy_js_or (v : option string) (fallback : string) :
  truthy v = false → js_or v fallback = fallback.
Proof.
  destruct v as [s|]; simpl; [|done].
  destruct (String.eqb s ""); [done|done].
Qed.

(** X3.  When the store answers with a non-empty translation for every
    item of the view, the cycle ends on that answer: the store was read
    once and nothing else was called, the flag is down, the metadata of the
    view is written, and every item shows the translation of the answer,
    whatever the hashes of the rows. *)
Theorem all_hits_settle {Ext : Type} (config : AudarConfig) (r : Render)
    (hash : string) (st : ViewState) (w : World Ext)
    (rows : list CachedRow) (s' : Ext) :
  getCachedTranslations (database config) (items r) (Some (locale r)) (ext w)
  = (Ok rows, s') →
  Forall (λ item,
            truthy (mjoin (cachedMap rows
                             !! cache_key (contentType item) (contentId item))) = true)
         (items r) →
  ∃ st' w', resume config (AwaitCached r hash) st w = (st', None, w')
    ∧ isTranslating st' = false
    ∧ ext w' = s'
    ∧ calls w' = calls w ++ [(CallGetCached (items r) (Some (locale r)), true)]
    ∧ localStorage w' !! metadataKey r
      = Some {| contentHash := hash; lastTranslated := now w;
                md_locale := locale r; itemCount := length (items r) |}
    ∧ ∀ item fallback, item ∈ items r → locale r ≠ r_defaultLocale r →
        Some (getTranslation r st' (contentType item) (contentId item) fallback)
        = mjoin (cachedMap rows !! cache_key (contentType item) (contentId item)).
Proof.
  intros Hget Hhits. unfold resume, invoke. rewrite Hget.
  pose proof (all_hits_nothing_to_translate rows (items r) Hhits) as Hnone.
  destruct (partition_items (cachedMap rows) (items r)) as [newCache uncached] eqn:Hpart.
  simpl in Hnone. subst uncached. rewrite decide_False by (simpl; lia).
  do 2 eexists. split; [reflexivity|]. split; [done|]. split; [done|].
  split; [done|]. split; [simpl; by rewrite lookup_insert_eq|].
  intros item fallback Hitem Hlocale. unfold getTranslation.
  rewrite decide_False by done. simpl.
  destruct (partition_items_foldl (cachedMap rows) (items r) (∅, [])
              (cache_key (contentType item) (contentId item))) as [_ Hlookup].
  cbv zeta in Hlookup. fold (partition_items (cachedMap rows) (items r)) in Hlookup.
  rewrite Hpart in Hlookup. simpl in Hlookup. rewrite Hlookup.
  rewrite Forall_forall in Hhits.
  rewrite decide_True.
  2:{ split; [|by apply Hhits]. apply Exists_exists. by exists item. }
  simpl. apply truthy_js_or. by apply Hhits.
Qed.

(** X4.  A cycle through [translateView] that has ended has left the flag
    down and has called the adapters in the order store read, provider,
    store write, each at most once and each only after the one before it
    returned.  The cache and the metadata change only when the last of its
    calls returned: when any call throws, also the write that follows a
    translation that went through, the cache and [localStorage] are what
    they were. *)
Theorem cycle_outcomes {Ext : Type} (config : AudarConfig) (fuel : nat)
    (r : Render) (hash : string) (st st' : ViewState) (w w' : World Ext) :
  run config fuel (st, Some (AwaitCached r hash), w) = Some (st', w') →
  let read := CallGetCached (items r) (Some (locale r)) in
  let translate u := CallTranslate u (r_defaultLocale r) (locale r) in
  let unchanged := cache st' = cache st ∧ localStorage w' = localStorage w in
  let written :=
    localStorage w'
    = <[metadataKey r := {| contentHash := hash; lastTranslated := now w;
                            md_locale := locale r;
                            itemCount := length (items r) |}]> (localStorage w) in
  isTranslating st' = false
  ∧ ∃ new, calls w' = calls w ++ new
      ∧ ((new = [(read, false)] ∧ unchanged)
         ∨ (new = [(read, true)] ∧ written)
         ∨ (∃ u, new = [(read, true); (translate u, false)] ∧ unchanged)
         ∨ (∃ u texts,
              new = [(read, true); (translate u, true);
                     (CallSave (translationsToSave r u texts), false)]
              ∧ unchanged)
         ∨ (∃ u texts,
              new = [(read, true); (translate u, true);
                     (CallSave (translationsToSave r u texts), true)]
              ∧ written)).
Proof.
  intros Hrun read translate unchanged written. subst unchanged written.
  destruct fuel as [|fuel]; [done|]. cbn [run] in Hrun.
  unfold resume at 1, invoke in Hrun.
  destruct (getCachedTranslations (database config) (items r) (Some (locale r)) (ext w))
    as [[rows|e] s1]; cbn [is_ok] in Hrun.
  2:{ unfold failed in Hrun. rewrite run_done in Hrun. injection Hrun as <- <-.
      split; [done|]. eexists. split; [done|]. by left. }
  destruct (partition_items (cachedMap rows) (items r)) as [newCache u].
  case_decide.
  2:{ unfold settle in Hrun. rewrite run_done in Hrun. injection Hrun as <- <-.
      split; [done|]. eexists. split; [done|]. right. by left. }
  destruct fuel as [|fuel]; [done|]. cbn [run] in Hrun.
  unfold resume at 1, invoke in Hrun. cbn [ext calls] in Hrun.
  destruct (translateBatch (llm config) u (r_defaultLocale r) (locale r) s1)
    as [[texts|e] s2]; cbn [is_ok] in Hrun.
  2:{ unfold failed in Hrun. rewrite run_done in Hrun. injection Hrun as <- <-.
      split; [done|]. eexists. split; [simpl; by rewrite <- app_assoc|].
      do 2 right. left. by exists u. }
  destruct fuel as [|fuel]; [done|]. cbn [run] in Hrun.
  unfold resume at 1, invoke in Hrun. cbn [ext calls] in Hrun.
  destruct (saveTranslations (database config) (translationsToSave r u texts) s2)
    as [[[]|e] s3]; cbn [is_ok] in Hrun.
  - unfold settle in Hrun. rewrite run_done in Hrun. injection Hrun as <- <-.
    split; [done|]. eexists. split; [simpl; by rewrite <- !app_assoc|].
    do 4 right. by exists u, texts.
  - unfold failed in Hrun. rewrite run_done in Hrun. injection Hrun as <- <-.
    split; [done|]. eexists. split; [simpl; by rewrite <- !app_assoc|].
    do 3 right. left. by exists u, texts.
Qed.

Lemma fingerprintView_Permutation_eq (items1 items2 : list TranslationItem) :
  items1 ≡ₚ items2 → fingerprintView items1 = fingerprintView items2.
Proof.
  intros Hperm. unfold fingerprintView, contentString.
  do 3 f_equal. apply js_sort_Permutation. by apply fmap_Permutation.
Qed.

(** X5.  Once a cycle has written the metadata of a view, the next effect
    for the same view name and locale takes the path that only loads from
    the store, also when the items come in another order: it waits for
    [loadFromDatabaseCache] and leaves the flag and the cache alone. *)
Theorem settled_view_takes_load_path {Ext : Type} (r r' : Render)
    (newCache : gmap string (option string)) (st st' : ViewState) (w : World Ext) :
  viewName r' = viewName r → locale r' = locale r → items r' ≡ₚ items r →
  locale r' ≠ r_defaultLocale r' → items r' ≠ [] →
  let w' := (settle r (fingerprintView (items r)) newCache st w).2 in
  effect r' st' w' = (st', Some (AwaitLoad r'), w').
Proof.
  intros Hname Hlocale Hperm Hdefault Hitems w'. subst w'.
  unfold effect. rewrite decide_False.
  2:{ intros [?|Hlen]; [done|]. by destruct (items r'). }
  unfold translateView, settle. cbn [snd localStorage setItem].
  assert (metadataKey r' = metadataKey r) as ->.
  { unfold metadataKey. by rewrite Hname, Hlocale. }
  rewrite lookup_insert_eq. cbn [contentHash itemCount].
  rewrite decide_True; [done|]. split.
  - symmetry. by apply fingerprintView_Permutation_eq.
  - symmetry. by apply Permutation_length.
Qed.

(** X6.  On the path of matching metadata the store is read once and the
    provider is never called: the cache becomes what the store answered,
    whatever that is, so an item the answer lacks stays on its fallback
    text; the flag and [localStorage] are untouched. *)
Theorem load_path_only_reads {Ext : Type} (config : AudarConfig) (fuel : nat)
    (r : Render) (st : ViewState) (w : World Ext)
    (metadata : ViewTranslationMetadata) (rows : list CachedRow) (s' : Ext) :
  localStorage w !! metadataKey r = Some metadata →
  contentHash metadata = fingerprintView (items r) →
  itemCount metadata = length (items r) →
  locale r ≠ r_defaultLocale r → items r ≠ [] →
  getCachedTranslations (database config) (items r) (Some (locale r)) (ext w)
  = (Ok rows, s') →
  ∃ w', sync config (Datatypes.S fuel) r st w = Some (setCache (cachedMap rows) st, w')
    ∧ ext w' = s'
    ∧ calls w' = calls w ++ [(CallGetCached (items r) (Some (locale r)), true)]
    ∧ localStorage w' = localStorage w.
Proof.
  intros Hmd Hhash Hcount Hdefault Hitems Hget.
  unfold sync, effect. rewrite decide_False.
  2:{ intros [?|Hlen]; [done|]. by destruct (items r). }
  unfold translateView. rewrite Hmd, decide_True by done.
  cbn [run]. unfold resume, invoke. rewrite Hget. rewrite run_done.
  eexists. split; [reflexivity|]. done.
Qed.

Lemma load_path_loops {Ext : Type} (config : AudarConfig) (r : Render)
    (st : ViewState) (metadata : ViewTranslationMetadata) :
  contentHash metadata = fingerprintView (items r) →
  itemCount metadata = length (items r) →
  (∀ s, ∃ e s',
     getCachedTranslations (database config) (items r) (Some (locale r)) s
     = (Throw e, s')) →
  ∀ (fuel : nat) (w : World Ext),
    localStorage w !! metadataKey r = Some metadata →
    run config fuel (st, Some (AwaitLoad r), w) = None.
Proof.
  intros Hhash Hcount Hdown. induction fuel as [|fuel IH]; intros w Hmd; [done|].
  cbn [run]. unfold resume, invoke.
  destruct (Hdown (ext w)) as (e & s' & ->).
  unfold translateView. cbn [localStorage].
  rewrite Hmd, decide_True by done. by apply IH.
Qed.

(** X7.  On the path of matching metadata a store that throws is asked
    again at once, with nothing that ends the asking: while the store keeps
    throwing, the cycle does not end, however many times it is resumed. *)
Theorem load_path_retries_forever {Ext : Type} (config : AudarConfig)
    (r : Render) (st : ViewState) (w : World Ext)
    (metadata : ViewTranslationMetadata) :
  localStorage w !! metadataKey r = Some metadata →
  contentHash metadata = fingerprintView (items r) →
  itemCount metadata = length (items r) →
  locale r ≠ r_defaultLocale r → items r ≠ [] →
  (∀ s, ∃ e s',
     getCachedTranslations (database config) (items r) (Some (locale r)) s
     = (Throw e, s')) →
  ∀ fuel, sync config fuel r st w = None.
Proof.
  intros Hmd Hhash Hcount Hdefault Hitems Hdown fuel.
  unfold sync, effect. rewrite decide_False.
  2:{ intros [?|Hlen]; [done|]. by destruct (items r). }
  unfold translateView. rewrite Hmd, decide_True by done.
  by apply (load_path_loops config r st metadata).
Qed.

(** X8.  An item that the hook reports as translating shows the fallback
    text. *)
Theorem translating_item_shows_fallback (r : Render) (st : ViewState)
    (ct cid fallback : string) :
  isItemTranslating r st ct cid = true →
  getTranslation r st ct cid fallback = fallback.
Proof.
  unfold isItemTranslating, getTranslation. case_decide; [done|].
  intros [_ Hfalsy]%andb_true_iff. apply negb_true_iff in Hfalsy.
  by apply falsy_js_or.
Qed.

Lemma add_translated_snoc (c : gmap string (option string))
    (l : list TranslationItem) (x : TranslationItem) (texts : list string) :
  add_translated c (l ++ [x]) texts
  = <[cache_key (contentType x) (contentId x) := texts !! length l]>
      (add_translated c l texts).
Proof.
  unfold add_translated. rewrite imap_app, foldl_app. simpl.
  by rewrite Nat.add_0_r.
Qed.

Lemma add_translated_other (c : gmap string (option string))
    (l : list TranslationItem) (texts : list string) (k : string) :
  k ∉ map (λ item, cache_key (contentType item) (contentId item)) l →
  add_translated c l texts !! k = c !! k.
Proof.
  induction l as [|x l IH] using rev_ind; intros Hk; [done|].
  rewrite add_translated_snoc. rewrite map_app in Hk.
  apply not_elem_of_app in Hk as [Hl Hx].
  rewrite lookup_insert_ne; [by apply IH|].
  intros <-. apply Hx. simpl. left.
Qed.

Lemma add_translated_own (c : gmap string (option string))
    (l : list TranslationItem) (texts : list string) (i : nat)
    (item : TranslationItem) :
  NoDup (map (λ item, cache_key (contentType item) (contentId item)) l) →
  l !! i = Some item →
  add_translated c l texts !! cache_key (contentType item) (contentId item)
  = Some (texts !! i).
Proof.
  revert i. induction l as [|x l IH] using rev_ind; intros i Hnodup Hi; [done|].
  rewrite add_translated_snoc. rewrite map_app in Hnodup.
  apply NoDup_app in Hnodup as (Hl & Hfresh & _).
  destruct (decide (i < length l)) as [Hlt|Hge].
  - rewrite lookup_app_l in Hi by done.
    rewrite lookup_insert_ne; [by apply IH|].
    intros Heq. apply (Hfresh (cache_key (contentType item) (contentId item))).
    + apply list_elem_of_fmap. exists item. split; [done|].
      by eapply list_elem_of_lookup_2.
    + rewrite <- Heq. simpl. left.
  - rewrite lookup_app_r in Hi by lia.
    destruct (i - length l) as [|n] eqn:Hn; [|by destruct n].
    injection Hi as <-. assert (i = length l) as -> by lia.
    by rewrite lookup_insert_eq.
Qed.

(** X9.  When the items that were sent to the provider have keys that
    differ from each other and the store has accepted the rows, every such
    item shows the string at its own place in the reply, or its fallback
    where the reply has none or an empty one; a key of no such item shows
    what the store had answered for it. *)
Theorem translated_items_show_their_reply {Ext : Type} (config : AudarConfig)
    (r : Render) (hash : string) (newCache : gmap string (option string))
    (uncachedItems : list TranslationItem) (translatedTexts : list string)
    (st : ViewState) (w : World Ext) (s' : Ext) :
  NoDup (map (λ item, cache_key (contentType item) (contentId item)) uncachedItems) →
  locale r ≠ r_defaultLocale r →
  saveTranslations (database config)
    (translationsToSave r uncachedItems translatedTexts) (ext w) = (Ok (), s') →
  ∃ st' w',
    resume config (AwaitSave r hash newCache uncachedItems translatedTexts) st w
    = (st', None, w')
    ∧ (∀ i item fallback, uncachedItems !! i = Some item →
         getTranslation r st' (contentType item) (contentId item) fallback
         = js_or (translatedTexts !! i) fallback)
    ∧ (∀ ct cid fallback,
         cache_key ct cid
           ∉ map (λ item, cache_key (contentType item) (contentId item)) uncachedItems →
         getTranslation r st' ct cid fallback
         = js_or (mjoin (newCache !! cache_key ct cid)) fallback).
Proof.
  intros Hnodup Hlocale Hsave. unfold resume, invoke. rewrite Hsave.
  do 2 eexists. split; [reflexivity|]. unfold getTranslation. split.
  - intros i item fallback Hitem. rewrite decide_False by done. simpl.
    by rewrite (add_translated_own _ _ _ i).
  - intros ct cid fallback Hother. rewrite decide_False by done. simpl.
    by rewrite add_translated_other.
Qed.

(** X10.  For content types without [":"], two items share a cache entry
    only if they have the same type and the same id. *)
Theorem cache_key_inj (ct cid ct' cid' : string) :
  has_char ":" ct = false → has_char ":" ct' = false →
  cache_key ct cid = cache_key ct' cid' → ct = ct' ∧ cid = cid'.
Proof. intros Hct Hct' Heq. by apply (app_sep_inj ":"%char). Qed.

(** ** The batch engine *)

(** What the loops that print do. *)
Lemma for_each_print {Ext : Type} {A} (l : list A) (f : A → Line) (w : World Ext) :
  Cli.for_each l (λ x, print (f x)) w
  = (Ok (), {| ext := ext w; calls := calls w; console := console w ++ map f l;
               localStorage := localStorage w; now := now w |}).
Proof.
  revert w. induction l as [|x l IH]; intros w; simpl.
  - unfold ret. rewrite app_nil_r. by destruct w.
  - unfold bind. cbn [print]. rewrite IH. cbn [ext calls console localStorage now].
    by rewrite <- app_assoc.
Qed.

(** [discoverContent], by the outcome of the one call it makes. *)
Lemma discoverContent_eq {Ext : Type} (db : DatabaseAdapter Ext)
    (config : Cli.AudarCLIConfig) (w : World Ext) :
  Cli.discoverContent db config w
  = match getAllTranslatableContent db with
    | None =>
        (Throw ("DatabaseAdapter does not support CLI mode. "
                ++ "Please implement getAllTranslatableContent() method.")%string,
         {| ext := ext w; calls := calls w;
            console := console w ++ [LineDiscovering];
            localStorage := localStorage w; now := now w |})
    | Some discover =>
        match discover (Cli.contentSources config) (ext w) with
        | (Ok found, s) =>
            let allContent :=
              map Cli.content_of
                (List.filter (λ item, negb (Cli.excluded config item)) found) in
            (Ok allContent,
             {| ext := s;
                calls := calls w ++ [(CallDiscover (Cli.contentSources config), true)];
                console := console w ++
                  LineDiscovering :: LineFound (length allContent)
                  :: map (λ entry, LineTypeCount entry.1 entry.2)
                         (tally (map dc_contentType allContent));
                localStorage := localStorage w; now := now w |})
        | (Throw e, s) =>
            (Throw e,
             {| ext := s;
                calls := calls w ++ [(CallDiscover (Cli.contentSources config), false)];
                console := console w ++ [LineDiscovering];
                localStorage := localStorage w; now := now w |})
        end
    end.
Proof.
  unfold Cli.discoverContent. unfold bind at 1. cbn [print].
  destruct (getAllTranslatableContent db) as [discover|]; [|done].
  unfold bind at 1, invoke. cbn [ext calls console localStorage now].
  destruct (discover (Cli.contentSources config) (ext w)) as [[found|e] s]; [|done].
  cbv zeta. unfold bind at 1. cbn [print]. unfold bind at 1.
  rewrite (for_each_print _ (λ entry, LineTypeCount entry.1 entry.2)).
  unfold ret. cbn [ext calls console localStorage now].
  by rewrite <- !app_assoc.
Qed.

(** [findTranslationGaps], by the outcome of the one call it makes. *)
Lemma findTranslationGaps_eq {Ext : Type} (db : DatabaseAdapter Ext)
    (content : list DiscoveredContent) (locales' : list string)
    (targetLocale : option string) (w : World Ext) :
  let targetLocales := Cli.target_locales locales' targetLocale in
  let asked := map Cli.item_of_content content in
  Cli.findTranslationGaps db content locales' targetLocale w
  = match getCachedTranslations db asked (head targetLocales) (ext w) with
    | (Ok cached, s) =>
        let gaps := omap (Cli.gap_of cached targetLocales) content in
        (Ok gaps,
         {| ext := s;
            calls := calls w ++ [(CallGetCached asked (head targetLocales), true)];
            console := console w ++
              LineFindingGaps :: LineGaps (length gaps)
              :: map (λ entry, LineLocaleMissing entry.1 entry.2)
                     (tally (concat (map missingLocales gaps)));
            localStorage := localStorage w; now := now w |})
    | (Throw e, s) =>
        (Throw e,
         {| ext := s;
            calls := calls w ++ [(CallGetCached asked (head targetLocales), false)];
            console := console w ++ [LineFindingGaps];
            localStorage := localStorage w; now := now w |})
    end.
Proof.
  intros targetLocales asked.
  unfold Cli.findTranslationGaps. unfold bind at 1. cbn [print].
  fold targetLocales asked.
  unfold bind at 1, invoke. cbn [ext calls console localStorage now].
  destruct (getCachedTranslations db asked (head targetLocales) (ext w))
    as [[cached|e] s]; [|done].
  cbv zeta. unfold bind at 1. cbn [print]. unfold bind at 1.
  rewrite (for_each_print _ (λ entry, LineLocaleMissing entry.1 entry.2)).
  unfold ret. cbn [ext calls console localStorage now].
  by rewrite <- !app_assoc.
Qed.

(** [runTranslation], by the outcomes of its steps. *)
Lemma runTranslation_eq {Ext : Type} (db : DatabaseAdapter Ext)
    (provider : LLMProvider Ext) (fuel : nat) (config : Cli.AudarCLIConfig)
    (options : Cli.CLIOptions) (w : World Ext) :
  Cli.runTranslation db provider fuel config options w
  = match Cli.discoverContent db config (print LineBanner w).2 with
    | (Throw e, w1) => Some (Throw e, w1)
    | (Ok content, w1) =>
        if decide (length content = 0) then Some (print LineNoContent w1)
        else
          match Cli.findTranslationGaps db content (Cli.locales config)
                  (Cli.opt_locale options) w1 with
          | (Throw e, w2) => Some (Throw e, w2)
          | (Ok gaps, w2) =>
              let targets :=
                Cli.target_locales (Cli.locales config) (Cli.opt_locale options) in
              if decide (length gaps = 0) then Some (print LineNoGaps w2)
              else if Cli.dryRun options then
                Some (Ok (),
                      {| ext := ext w2; calls := calls w2;
                         console := console w2 ++
                           LineDryRunNotice :: LineDryRun (length gaps)
                           :: map (λ l, LineDryRunLocale l
                                          (length (Cli.itemsForLocale gaps l)))
                                  targets;
                         localStorage := localStorage w2; now := now w2 |})
              else
                match Cli.translate_locales db provider fuel gaps
                        (js_or (Cli.sourceLocale config) "en")
                        (Cli.effective_batchSize config) targets 0 w2 with
                | Some (Ok total, w3) =>
                    Some (Ok (),
                          {| ext := ext w3; calls := calls w3;
                             console := console w3 ++
                               [LineComplete; LineSummaryHead; LineTotal total;
                                LineDuration; LineLocales targets; LineNextSteps;
                                LineNextDeploy; LineNextLazy];
                             localStorage := localStorage w3; now := now w3 |})
                | Some (Throw e, w3) => Some (Throw e, w3)
                | None => None
                end
          end
    end.
Proof.
  unfold Cli.runTranslation. unfold bindP at 1, ended at 1.
  destruct (print LineBanner w) as [[[]|e] w0] eqn:Hbanner; [|done].
  injection Hbanner as <-. cbn [snd]. unfold bindP at 1, ended at 1.
  destruct (Cli.discoverContent db config _) as [[content|e] w1]; [|done].
  case_decide; [done|]. unfold bindP at 1, ended at 1.
  destruct (Cli.findTranslationGaps db content _ _ w1) as [[gaps|e] w2]; [|done].
  cbv zeta. case_decide; [done|]. destruct (Cli.dryRun options).
  - unfold ended, bind at 1. cbn [print]. unfold bind at 1. cbn [print].
    rewrite for_each_print. cbn [ext calls console localStorage now].
    by rewrite <- !app_assoc.
  - unfold bindP at 1.
    destruct (Cli.translate_locales db provider fuel gaps _ _ _ 0 w2)
      as [[[total|e] w3]|]; [|done..].
    unfold ended, bind, print. cbn [ext calls console localStorage now].
    by rewrite <- !app_assoc.
Qed.

(** X11.  With an adapter that has no [getAllTranslatableContent], as the
    example Supabase adapter, a run throws before it has called the store or
    the provider; all it has printed by then is its banner and the line
    that announces the discovery. *)
Theorem no_discovery_no_run {Ext : Type} (db : DatabaseAdapter Ext)
    (provider : LLMProvider Ext) (fuel : nat) (config : Cli.AudarCLIConfig)
    (options : Cli.CLIOptions) (w : World Ext) :
  getAllTranslatableContent db = None →
  Cli.runTranslation db provider fuel config options w
  = Some (Throw ("DatabaseAdapter does not support CLI mode. "
                 ++ "Please implement getAllTranslatableContent() method.")%string,
          {| ext := ext w; calls := calls w;
             console := console w ++ [LineBanner; LineDiscovering];
             localStorage := localStorage w; now := now w |}).
Proof.
  intros Hnone. rewrite runTranslation_eq, discoverContent_eq, Hnone.
  cbn [print snd ext calls console localStorage now]. by rewrite <- app_assoc.
Qed.

Lemma filter_const {A} (b : bool) (l : list A) :
  List.filter (λ _, b) l = if b then l else [].
Proof. destruct b; induction l as [|x l IH]; simpl; [done| |done|done]. by rewrite IH. Qed.

Lemma gap_of_spec (cached : list CachedRow) (targetLocales : list string)
    (item : DiscoveredContent) :
  Cli.gap_of cached targetLocales item
  = if Cli.needs_translation cached item && bool_decide (targetLocales ≠ [])
    then Some {| gap_contentType := dc_contentType item;
                 gap_contentId := dc_contentId item;
                 gap_text := dc_text item;
                 gap_sourceHash := dc_sourceHash item;
                 missingLocales := targetLocales |}
    else None.
Proof.
  unfold Cli.gap_of. rewrite filter_const.
  destruct (Cli.needs_translation cached item); cbn [andb].
  - destruct targetLocales as [|l ls].
    + rewrite decide_False by (simpl; lia).
      by rewrite bool_decide_eq_false_2 by (intros H; by apply H).
    + rewrite decide_True by (simpl; lia). by rewrite bool_decide_eq_true_2.
  - by rewrite decide_False by (simpl; lia).
Qed.


Lemma batch_count_spec (its : list TranslationGap) (batchSize' j : nat) :
  0 < batchSize' → j < batch_count its batchSize' ↔ j * batchSize' < length its.
Proof.
  intros Hpos. unfold batch_count. split.
  - intros Hj. destruct (decide (j * batchSize' < length its)) as [|Hge]; [done|].
    exfalso. assert ((length its + batchSize' - 1) / batchSize' < Datatypes.S j); [|lia].
    apply Nat.Div0.div_lt_upper_bound. nia.
  - intros Hj.
    assert (Datatypes.S j ≤ (length its + batchSize' - 1) / batchSize')%nat; [|lia].
    apply Nat.div_le_lower_bound; [lia|nia].
Qed.

Lemma nth_batch_length (its : list TranslationGap) (batchSize' j : nat) :
  length (nth_batch its batchSize' j) = batchSize' `min` (length its - j * batchSize').
Proof. unfold nth_batch. by rewrite length_take, length_drop. Qed.

Lemma nth_batch_concat (batchSize' n : nat) :
  ∀ its : list TranslationGap, (length its ≤ n * batchSize')%nat →
    concat (map (nth_batch its batchSize') (seq 0 n)) = its.
Proof.
  induction n as [|n IH]; intros its Hlen.
  - destruct its; [done|simpl in Hlen; lia].
  - rewrite <- cons_seq, <- fmap_S_seq. simpl.
    rewrite <- list_fmap_compose.
    rewrite (list_fmap_ext _ (nth_batch (drop batchSize' its) batchSize') (seq 0 n)).
    + rewrite IH by (rewrite length_drop; lia).
      unfold nth_batch. simpl. rewrite drop_0. apply take_drop.
    + intros i j _. unfold nth_batch. simpl. rewrite drop_drop.
      do 2 f_equal; lia.
Qed.

(** The slices are all of the items, none is empty, and all but the last
    are of the batch size. *)
Lemma nth_batch_cover (its : list TranslationGap) (batchSize' : nat) :
  0 < batchSize' →
  concat (map (nth_batch its batchSize') (seq 0 (batch_count its batchSize'))) = its
  ∧ ∀ j, j < batch_count its batchSize' →
      0 < length (nth_batch its batchSize' j)
      ∧ (length (nth_batch its batchSize' j) ≤ batchSize')%nat
      ∧ (Datatypes.S j < batch_count its batchSize' →
         length (nth_batch its batchSize' j) = batchSize').
Proof.
  intros Hpos. split.
  - apply nth_batch_concat.
    destruct (decide (length its ≤ batch_count its batchSize' * batchSize')%nat)
      as [|Hgt]; [done|].
    exfalso. assert (batch_count its batchSize' < batch_count its batchSize'); [|lia].
    apply batch_count_spec; [done|lia].
  - intros j Hj. rewrite nth_batch_length.
    apply batch_count_spec in Hj; [|done]. split; [lia|]. split; [lia|].
    intros Hnext. apply batch_count_spec in Hnext; [|done]. nia.
Qed.

(** For a batch size of at least one the loop ends within as many turns
    as there are items left, and the provider is called on the slices from
    the [j]-th on, in their order, up to the first call that throws. *)
Lemma batch_loop_sent {Ext : Type} (db : DatabaseAdapter Ext)
    (provider : LLMProvider Ext) (its : list TranslationGap)
    (locale' sourceLocale' : string) (batchSize' : nat) (batches : Num) :
  0 < batchSize' →
  ∀ (fuel j total : nat) (w : World Ext),
    (length its - j * batchSize' ≤ fuel)%nat →
    ∃ r w' new m,
      Cli.batch_loop db provider fuel its locale' sourceLocale'
        (Z.of_nat batchSize') batches (Z.of_nat (j * batchSize')) total w
      = Some (r, w')
      ∧ calls w' = calls w ++ new
      ∧ sent_batches new
        = map (λ i, map Cli.item_of_gap (nth_batch its batchSize' i)) (seq j m)
      ∧ (m = 0 ∨ (j + m - 1) * batchSize' < length its)
      ∧ (is_ok r = true → (length its ≤ (j + m) * batchSize')%nat).
Proof.
  intros Hpos. induction fuel as [|fuel IH]; intros j total w Hfuel.
  - exists (Ok total), w, [], 0. rewrite batch_loop_end by lia.
    split; [done|]. split; [by rewrite app_nil_r|]. split; [done|].
    split; [by left|]. intros _. lia.
  - destruct (decide (j * batchSize' < length its)) as [Hj|Hj].
    2:{ exists (Ok total), w, [], 0. rewrite batch_loop_end by lia.
        split; [done|]. split; [by rewrite app_nil_r|]. split; [done|].
        split; [by left|]. intros _. lia. }
    rewrite batch_loop_turn by done.
    set (batch := nth_batch its batchSize' j).
    unfold Cli.translate_one, rethrowing, bind, invoke, print, ret.
    cbn [ext calls console localStorage now fst snd].
    destruct (translateBatch provider (map Cli.item_of_gap batch) sourceLocale'
                locale' (ext w)) as [[translations|e] s1].
    2:{ eexists (Throw e), _, _, 1. split; [reflexivity|].
        cbn [ext calls console localStorage now fst snd is_ok].
        split; [reflexivity|]. split; [reflexivity|]. split; [right|done].
        by replace (j + 1 - 1) with j by lia. }
    cbn [ext calls console localStorage now fst snd is_ok].
    destruct (saveTranslations db (Cli.rows_of_batch locale' batch translations) s1)
      as [[[]|e] s2].
    2:{ eexists (Throw e), _, _, 1. split; [reflexivity|].
        cbn [ext calls console localStorage now fst snd is_ok].
        split; [by rewrite <- app_assoc|]. split; [reflexivity|]. split; [right|done].
        by replace (j + 1 - 1) with j by lia. }
    cbn [ext calls console localStorage now fst snd is_ok].
    match goal with
    | |- context [Cli.batch_loop _ _ _ _ _ _ _ _ _ _ ?w1] =>
        destruct (IH (Datatypes.S j) (total + length translations) w1)
          as (r & w' & new & m & Hrun & Hcalls & Hsent & Hlast & Hok)
    end.
    { lia. }
    exists r, w',
      ((CallTranslate (map Cli.item_of_gap batch) sourceLocale' locale', true)
       :: (CallSave (Cli.rows_of_batch locale' batch translations), true) :: new),
      (Datatypes.S m).
    split; [exact Hrun|]. split.
    { rewrite Hcalls. cbn [calls]. by rewrite <- !app_assoc. }
    split.
    { cbn [sent_batches omap list_omap fst]. fold (sent_batches new).
      rewrite Hsent. reflexivity. }
    split.
    + right. destruct Hlast as [->|Hlast].
      * by replace (j + 1 - 1) with j by lia.
      * by replace (j + Datatypes.S m - 1) with (Datatypes.S j + m - 1) by lia.
    + intros Hr. replace (j + Datatypes.S m) with (Datatypes.S j + m) by lia.
      by apply Hok.
Qed.

(** X13.  For an integer batch size of at least one, the run for a locale
    ends when it is given as many turns as the locale has gaps; the batches
    it has called the provider with are, in their order, the first slices
    of the gaps, all of the slices when the run has returned; and the slices
    are together all the gaps, in order: as many as [Math.ceil] counts, none
    empty, none longer than the batch size, and all but the last of exactly
    that size. *)
Theorem batches_cover {Ext : Type} (db : DatabaseAdapter Ext)
    (provider : LLMProvider Ext) (fuel : nat) (gaps : list TranslationGap)
    (locale' sourceLocale' : string) (batchSize' : nat) (w : World Ext) :
  0 < batchSize' →
  (length (Cli.itemsForLocale gaps locale') ≤ fuel)%nat →
  let its := Cli.itemsForLocale gaps locale' in
  ∃ r w' new m,
    Cli.translateBatch db provider fuel gaps locale' sourceLocale'
      (Z.of_nat batchSize') w = Some (r, w')
    ∧ calls w' = calls w ++ new
    ∧ sent_batches new
      = map (λ j, map Cli.item_of_gap (nth_batch its batchSize' j)) (seq 0 m)
    ∧ (m ≤ batch_count its batchSize')%nat
    ∧ (is_ok r = true → m = batch_count its batchSize')
    ∧ concat (map (nth_batch its batchSize') (seq 0 (batch_count its batchSize'))) = its
    ∧ ∀ j, j < batch_count its batchSize' →
        0 < length (nth_batch its batchSize' j)
        ∧ (length (nth_batch its batchSize' j) ≤ batchSize')%nat
        ∧ (Datatypes.S j < batch_count its batchSize' →
           length (nth_batch its batchSize' j) = batchSize').
Proof.
  intros Hpos Hfuel its.
  destruct (nth_batch_cover its batchSize' Hpos) as [Hcover Hsizes].
  unfold Cli.translateBatch. fold its. case_decide as Hempty.
  { exists (Ok 0), w, [], 0. split; [done|]. split; [by rewrite app_nil_r|].
    split; [done|]. split; [lia|]. split; [|done]. intros _.
    destruct (batch_count its batchSize') as [|n] eqn:Hn; [done|].
    assert (n < batch_count its batchSize') as Hlt by lia.
    apply batch_count_spec in Hlt; [lia|done]. }
  unfold bindP at 1, ended at 1, print at 1.
  edestruct (batch_loop_sent db provider its locale' sourceLocale' batchSize'
               (ceil_div (Z.of_nat (length its)) (Z.of_nat batchSize')) Hpos
               fuel 0 0
               {| ext := ext w; calls := calls w;
                  console := console w ++ [LineTranslating locale'];
                  localStorage := localStorage w; now := now w |})
    as (r & w' & new & m & Hrun & Hcalls & Hsent & Hlast & Hok);
    [rewrite Nat.mul_0_l, Nat.sub_0_r; exact Hfuel|].
  exists r, w', new, m. split; [exact Hrun|]. split; [exact Hcalls|].
  split; [exact Hsent|]. simpl in Hlast, Hok.
  assert (m ≤ batch_count its batchSize')%nat as Hm.
  { destruct Hlast as [->|Hlast]; [lia|].
    apply batch_count_spec in Hlast; [lia|done]. }
  split; [exact Hm|]. split; [|done].
  intros Hr. apply Hok in Hr.
  destruct (decide (m < batch_count its batchSize')) as [Hlt|]; [|lia].
  apply batch_count_spec in Hlt; [lia|done].
Qed.

Lemma batch_loop_all_through {Ext : Type} (db : DatabaseAdapter Ext)
    (provider : LLMProvider Ext) (its : list TranslationGap)
    (locale' sourceLocale' : string) (batchSize' : nat) (batches : Num) :
  0 < batchSize' →
  (∀ batch src tgt s translations s',
     translateBatch provider batch src tgt s = (Ok translations, s') →
     length translations = length batch) →
  ∀ (n j total : nat) (w : World Ext) (s' : Ext),
    (length its ≤ (j + n) * batchSize')%nat →
    (n = 0 ∨ (j + n - 1) * batchSize' < length its) →
    saved_through db provider its locale' sourceLocale' batchSize' n j (ext w) = Some s' →
    ∃ w', ext w' = s'
      ∧ ∀ fuel, (n ≤ fuel)%nat →
          Cli.batch_loop db provider fuel its locale' sourceLocale'
            (Z.of_nat batchSize') batches (Z.of_nat (j * batchSize')) total w
          = Some (Ok (total + (length its - j * batchSize')), w').
Proof.
  intros Hpos Hcount. induction n as [|n IH];
    intros j total w s' Hlen Hlast Hsaved; simpl in Hsaved.
  - injection Hsaved as <-. exists w. split; [done|]. intros fuel _.
    replace (length its - j * batchSize') with 0 by lia. rewrite Nat.add_0_r.
    apply batch_loop_end; [done|lia].
  - assert (j * batchSize' < length its) as Hj by (destruct Hlast; [done|nia]).
    destruct (translateBatch provider _ sourceLocale' locale' (ext w))
      as [[translations|e] sa] eqn:Htranslate; [|done].
    destruct (saveTranslations db _ sa) as [[[]|e] sb] eqn:Hsave; [|done].
    pose proof (translate_one_through db provider locale' sourceLocale' batches
                  (Int (Z.of_nat (j + 1))) _ _ _ _ _ Htranslate Hsave) as Hone.
    apply Hcount in Htranslate. rewrite length_map, nth_batch_length in Htranslate.
    match type of Hone with
    | _ = (_, ?w1) =>
        destruct (IH (Datatypes.S j) (total + length translations) w1 s')
          as (w' & Hext & Hrun)
    end.
    + lia.
    + destruct n; [by left|right]. destruct Hlast as [|Hlast]; [done|].
      by replace (Datatypes.S j + Datatypes.S n - 1)
        with (j + Datatypes.S (Datatypes.S n) - 1) by lia.
    + exact Hsaved.
    + exists w'. split; [done|]. intros [|fuel] Hfuel; [lia|].
      rewrite batch_loop_turn by done. rewrite Hone.
      replace (total + (length its - j * batchSize'))
        with (total + length translations + (length its - Datatypes.S j * batchSize'))
        by lia.
      apply Hrun. lia.
Qed.

(** When every batch of a locale goes through and the provider answers each
    batch with as many strings as it was given items, the run for the
    locale, given a turn for each batch, returns the number of the locale's
    gaps. *)
Lemma translateBatch_through {Ext : Type} (db : DatabaseAdapter Ext)
    (provider : LLMProvider Ext) (gaps : list TranslationGap)
    (locale' sourceLocale' : string) (batchSize' : nat) (w : World Ext) (s' : Ext) :
  0 < batchSize' →
  (∀ batch src tgt s translations s1,
     translateBatch provider batch src tgt s = (Ok translations, s1) →
     length translations = length batch) →
  saved_through db provider (Cli.itemsForLocale gaps locale') locale' sourceLocale'
    batchSize' (batch_count (Cli.itemsForLocale gaps locale') batchSize') 0 (ext w)
  = Some s' →
  ∃ w', ext w' = s'
    ∧ ∀ fuel, (batch_count (Cli.itemsForLocale gaps locale') batchSize' ≤ fuel)%nat →
        Cli.translateBatch db provider fuel gaps locale' sourceLocale'
          (Z.of_nat batchSize') w
        = Some (Ok (length (Cli.itemsForLocale gaps locale')), w').
Proof.
  intros Hpos Hcount Hsaved.
  set (its := Cli.itemsForLocale gaps locale') in *.
  assert (length its ≤ batch_count its batchSize' * batchSize')%nat as Hcover.
  { destruct (decide (length its ≤ batch_count its batchSize' * batchSize')%nat)
      as [|Hgt]; [done|].
    exfalso. assert (batch_count its batchSize' < batch_count its batchSize'); [|lia].
    apply batch_count_spec; [done|lia]. }
  destruct (decide (length its = 0)) as [Hempty|Hempty].
  - exists w. assert (batch_count its batchSize' = 0) as Hzero.
    { destruct (batch_count its batchSize') as [|n] eqn:Hn; [done|].
      assert (n < batch_count its batchSize') as Hlt by lia.
      apply batch_count_spec in Hlt; [lia|done]. }
    rewrite Hzero in Hsaved. simpl in Hsaved. injection Hsaved as <-.
    split; [done|]. intros fuel _. unfold Cli.translateBatch. fold its.
    rewrite decide_True by done. by rewrite Hempty.
  - edestruct (batch_loop_all_through db provider its locale' sourceLocale' batchSize'
                 (ceil_div (Z.of_nat (length its)) (Z.of_nat batchSize'))
                 Hpos Hcount (batch_count its batchSize') 0 0
                 {| ext := ext w; calls := calls w;
                    console := console w ++ [LineTranslating locale'];
                    localStorage := localStorage w; now := now w |})
      as (w' & Hext & Hrun); [| |exact Hsaved|].
    + simpl. lia.
    + right. simpl.
      assert (batch_count its batchSize' - 1 < batch_count its batchSize') as Hlt.
      { assert (0 < batch_count its batchSize'); [|lia].
        apply batch_count_spec; [done|]. simpl. lia. }
      by apply batch_count_spec in Hlt.
    + exists w'. split; [done|]. intros fuel Hfuel.
      unfold Cli.translateBatch. fold its. rewrite decide_False by done.
      unfold bindP at 1, ended at 1, print at 1.
      specialize (Hrun fuel Hfuel). cbn [Nat.mul Nat.add] in Hrun.
      rewrite Nat.sub_0_r in Hrun. exact Hrun.
Qed.

(** X14.  When every batch of a locale goes through and the provider
    answers each batch with as many strings as it was given items, the run
    for the locale, given a turn for each batch, returns the number of the
    locale's gaps; and in a store that keeps its contract every one of
    these gaps then has a record under the locale. *)
Theorem translateBatch_all_through {Ext : Type} (db : DatabaseAdapter Ext)
    (provider : LLMProvider Ext) (present : Ext → string * string * string → Prop)
    (gaps : list TranslationGap) (locale' sourceLocale' : string)
    (batchSize' : nat) (w : World Ext) (s' : Ext) :
  0 < batchSize' →
  (∀ batch src tgt s translations s1,
     translateBatch provider batch src tgt s = (Ok translations, s1) →
     length translations = length batch) →
  StoreContract db provider present →
  saved_through db provider (Cli.itemsForLocale gaps locale') locale' sourceLocale'
    batchSize' (batch_count (Cli.itemsForLocale gaps locale') batchSize') 0 (ext w)
  = Some s' →
  ∃ w', (∀ fuel, (batch_count (Cli.itemsForLocale gaps locale') batchSize' ≤ fuel)%nat →
           Cli.translateBatch db provider fuel gaps locale' sourceLocale'
             (Z.of_nat batchSize') w
           = Some (Ok (length (Cli.itemsForLocale gaps locale')), w'))
    ∧ ext w' = s'
    ∧ ∀ g, g ∈ Cli.itemsForLocale gaps locale' →
        present s' (gap_contentType g, gap_contentId g, locale').
Proof.
  intros Hpos Hcount Hcontract Hsaved.
  destruct (translateBatch_through db provider gaps locale' sourceLocale' batchSize'
              w s' Hpos Hcount Hsaved) as (w' & Hext & Hrun).
  exists w'. split; [exact Hrun|]. split; [exact Hext|].
  set (its := Cli.itemsForLocale gaps locale') in *.
  intros g Hg.
  rewrite <- (proj1 (nth_batch_cover its batchSize' Hpos)) in Hg.
  apply list_elem_of_In, in_concat in Hg as (batch & Hbatch & Hg).
  apply in_map_iff in Hbatch as (j & <- & Hj). apply in_seq in Hj.
  apply list_elem_of_In in Hg.
  destruct (saved_through_present db provider its locale' sourceLocale' batchSize'
              Hpos present Hcontract _ _ _ _ Hsaved) as [_ Hbatches].
  apply (Hbatches j g); [lia|done].
Qed.

(** X15.  When discovery finds nothing, or only items of excluded types,
    the run ends after the one call of discovery: the store is not asked
    for translations, nothing is translated, and the lines printed are the
    banner, the announcement of the discovery, the count of zero items and
    the notice that there is no content. *)
Theorem nothing_discovered_stops {Ext : Type} (db : DatabaseAdapter Ext)
    (provider : LLMProvider Ext) (fuel : nat) (config : Cli.AudarCLIConfig)
    (options : Cli.CLIOptions) (w : World Ext)
    (discover : list ContentSource → Ext → result (list TranslationItem) * Ext)
    (found : list TranslationItem) (s' : Ext) :
  getAllTranslatableContent db = Some discover →
  discover (Cli.contentSources config) (ext w) = (Ok found, s') →
  Forall (λ item, Cli.excluded config item = true) found →
  Cli.runTranslation db provider fuel config options w
  = Some (Ok (),
          {| ext := s';
             calls := calls w ++ [(CallDiscover (Cli.contentSources config), true)];
             console := console w ++
               [LineBanner; LineDiscovering; LineFound 0; LineNoContent];
             localStorage := localStorage w; now := now w |}).
Proof.
  intros Hdiscover Hfound Hexcluded.
  assert (List.filter (λ item, negb (Cli.excluded config item)) found = [])
    as Hfilter.
  { clear Hfound. induction Hexcluded as [|item found Hitem _ IH]; [done|].
    simpl. by rewrite Hitem. }
  rewrite runTranslation_eq, discoverContent_eq, Hdiscover.
  cbn [print snd ext calls console localStorage now].
  rewrite Hfound. cbv zeta. rewrite Hfilter.
  change (tally (map dc_contentType (map Cli.content_of [])))
    with (@nil (string * Tally)).
  cbn [map length]. rewrite decide_True by done.
  unfold print. cbn [ext calls console localStorage now].
  by rewrite <- !app_assoc.
Qed.

Lemma no_target_no_gap (cached : list CachedRow) (content : list DiscoveredContent) :
  omap (Cli.gap_of cached []) content = [].
Proof.
  induction content as [|item content IH]; [done|].
  cbn [omap list_omap]. rewrite gap_of_spec.
  rewrite bool_decide_eq_false_2 by (intros H; by apply H).
  rewrite andb_false_r. exact IH.
Qed.

(** X16.  With no target locale, an empty [locales] and no [--locale], a
    run, dry or not, ends without translating anything: the store is asked
    once, with no locale, and whatever it holds the run reports that there
    are no gaps. *)
Theorem no_target_locale_no_translation {Ext : Type} (db : DatabaseAdapter Ext)
    (provider : LLMProvider Ext) (fuel : nat) (config : Cli.AudarCLIConfig)
    (options : Cli.CLIOptions) (w : World Ext) :
  Cli.target_locales (Cli.locales config) (Cli.opt_locale options) = [] →
  ∃ r w',
    Cli.runTranslation db provider fuel config options w = Some (r, w')
    ∧ (∃ new, calls w' = calls w ++ new ∧ Forall (λ c, read_only c.1 = true) new)
    ∧ ∀ content w1 cached s,
        Cli.discoverContent db config (print LineBanner w).2 = (Ok content, w1) →
        content ≠ [] →
        getCachedTranslations db (map Cli.item_of_content content) None (ext w1)
        = (Ok cached, s) →
        r = Ok ()
        ∧ ext w' = s
        ∧ console w' = console w1 ++ [LineFindingGaps; LineGaps 0; LineNoGaps].
Proof.
  intros Hnone.
  assert (∀ content w1,
            Cli.findTranslationGaps db content (Cli.locales config)
              (Cli.opt_locale options) w1
            = match getCachedTranslations db (map Cli.item_of_content content) None
                      (ext w1) with
              | (Ok _, s) =>
                  (Ok [],
                   {| ext := s;
                      calls := calls w1 ++
                        [(CallGetCached (map Cli.item_of_content content) None, true)];
                      console := console w1 ++ [LineFindingGaps; LineGaps 0];
                      localStorage := localStorage w1; now := now w1 |})
              | (Throw e, s) =>
                  (Throw e,
                   {| ext := s;
                      calls := calls w1 ++
                        [(CallGetCached (map Cli.item_of_content content) None, false)];
                      console := console w1 ++ [LineFindingGaps];
                      localStorage := localStorage w1; now := now w1 |})
              end) as Hfind.
  { intros content w1. rewrite findTranslationGaps_eq. rewrite Hnone. simpl.
    destruct (getCachedTranslations db _ None (ext w1)) as [[cached|e] s]; [|done].
    by rewrite no_target_no_gap. }
  rewrite runTranslation_eq.
  set (w0 := (print LineBanner w).2).
  pose proof (only_read_print db LineBanner w) as H0. fold w0 in H0.
  pose proof (only_read_discoverContent db config w0) as H1.
  destruct (Cli.discoverContent db config w0) as [[content|e] w1] eqn:Hdiscover;
    simpl in H1.
  2:{ eexists _, _. split; [reflexivity|]. split.
      - apply (only_read_trans db w w0 w1 H0 H1).
      - intros ? ? ? ? [=]. }
  case_decide as Hcontent.
  { eexists _, _. split; [reflexivity|]. split.
    - apply (only_read_trans db w w0 _ H0).
      apply (only_read_trans db w0 w1 _ H1). apply only_read_print.
    - intros content' w1' cached s [= <- <-] Hne. by destruct content. }
  pose proof (only_read_findTranslationGaps db content (Cli.locales config)
                (Cli.opt_locale options) w1) as H2.
  rewrite Hfind in H2 |- *.
  destruct (getCachedTranslations db _ None (ext w1)) as [[cached|e] s] eqn:Hget.
  2:{ eexists _, _. split; [reflexivity|]. split.
      - apply (only_read_trans db w w0 _ H0).
        apply (only_read_trans db w0 w1 _ H1). exact H2.
      - intros content' w1' cached' s0 [= <- <-] _ Hget'.
        rewrite Hget in Hget'. discriminate Hget'. }
  cbv zeta. rewrite decide_True by done.
  eexists _, _. split; [reflexivity|]. split.
  - apply (only_read_trans db w w0 _ H0).
    apply (only_read_trans db w0 w1 _ H1).
    match type of H2 with
    | only_read _ _ ?w2 => apply (only_read_trans db w1 w2); [exact H2|]
    end.
    apply only_read_print.
  - intros content' w1' cached' s0 [= <- <-] _ Hget'.
    rewrite Hget in Hget'. injection Hget' as <- <-.
    split; [done|]. split; [done|].
    cbn [print snd console]. by rewrite <- app_assoc.
Qed.

(** X23.  A dry run ends, whatever turns it is given, and calls neither
    [translateBatch] nor [saveTranslations]: the calls it adds are calls of
    [getAllTranslatableContent] and [getCachedTranslations], the browser's
    storage is left alone, and with reading methods that leave the store
    alone the store is as before the run.  When content and gaps were found
    it returns, and its last lines are the notice of the dry run, the
    number of gaps and, for every target locale in turn, the number of gaps
    that the gap finding has put that locale on. *)
Theorem dry_run_frame {Ext : Type} (db : DatabaseAdapter Ext)
    (provider : LLMProvider Ext) (fuel : nat) (config : Cli.AudarCLIConfig)
    (options : Cli.CLIOptions) (w : World Ext) :
  Cli.dryRun options = true →
  ∃ r w',
    Cli.runTranslation db provider fuel config options w = Some (r, w')
    ∧ (∃ new, calls w' = calls w ++ new
         ∧ Forall (λ c, ∀ rows its sourceLocale' targetLocale,
                     c.1 ≠ CallSave rows
                     ∧ c.1 ≠ CallTranslate its sourceLocale' targetLocale) new)
    ∧ (reads_pure db → ext w' = ext w)
    ∧ localStorage w' = localStorage w
    ∧ ∀ content w1 gaps w2,
        Cli.discoverContent db config (print LineBanner w).2 = (Ok content, w1) →
        content ≠ [] →
        Cli.findTranslationGaps db content (Cli.locales config)
          (Cli.opt_locale options) w1 = (Ok gaps, w2) →
        gaps ≠ [] →
        r = Ok ()
        ∧ console w'
          = console w2 ++ LineDryRunNotice :: LineDryRun (length gaps)
              :: map (λ l, LineDryRunLocale l (length (Cli.itemsForLocale gaps l)))
                     (Cli.target_locales (Cli.locales config) (Cli.opt_locale options)).
Proof.
  intros Hdry.
  assert (∀ r w',
            Cli.runTranslation db provider fuel config options w = Some (r, w') →
            only_read db w w') as Hread.
  { intros r w'. rewrite runTranslation_eq.
    set (w0 := (print LineBanner w).2).
    pose proof (only_read_print db LineBanner w) as H0. fold w0 in H0.
    pose proof (only_read_discoverContent db config w0) as H1.
    destruct (Cli.discoverContent db config w0) as [[content|e] w1]; simpl in H1.
    2:{ intros [= <- <-]. by apply (only_read_trans db w w0). }
    case_decide.
    { intros [= <- <-]. apply (only_read_trans db w w0); [done|].
      apply (only_read_trans db w0 w1); [done|apply only_read_print]. }
    pose proof (only_read_findTranslationGaps db content (Cli.locales config)
                  (Cli.opt_locale options) w1) as H2.
    destruct (Cli.findTranslationGaps db content _ _ w1) as [[gaps|e] w2];
      simpl in H2.
    2:{ intros [= <- <-]. apply (only_read_trans db w w0); [done|].
        by apply (only_read_trans db w0 w1). }
    cbv zeta. case_decide.
    { intros [= <- <-]. apply (only_read_trans db w w0); [done|].
      apply (only_read_trans db w0 w1); [done|].
      apply (only_read_trans db w1 w2); [done|apply only_read_print]. }
    rewrite Hdry. intros [= <- <-]. apply (only_read_trans db w w0); [done|].
    apply (only_read_trans db w0 w1); [done|].
    apply (only_read_trans db w1 w2); [done|].
    split; [|done]. exists []. by rewrite app_nil_r. }
  assert (∃ r w', Cli.runTranslation db provider fuel config options w = Some (r, w'))
    as (r & w' & Hrun).
  { rewrite runTranslation_eq.
    destruct (Cli.discoverContent db config _) as [[content|e] w1]; [|eauto].
    case_decide; [destruct (print LineNoContent w1); eauto|].
    destruct (Cli.findTranslationGaps db content _ _ w1) as [[gaps|e] w2]; [|eauto].
    cbv zeta. case_decide; [destruct (print LineNoGaps w2); eauto|].
    rewrite Hdry. eauto. }
  exists r, w'. split; [exact Hrun|].
  destruct (Hread r w' Hrun) as ([new [Hcalls Hnew]] & Hstorage & Hext).
  split; [|split; [exact Hext|split; [exact Hstorage|]]].
  - exists new. split; [done|].
    eapply Forall_impl; [exact Hnew|]. intros [c ok] Hc rows its src tgt.
    simpl in *. split; intros ->; done.
  - intros content w1 gaps w2 Hdiscover Hcontent Hfind Hgaps.
    rewrite runTranslation_eq, Hdiscover in Hrun.
    rewrite decide_False in Hrun by (by destruct content).
    rewrite Hfind in Hrun. cbv zeta in Hrun.
    rewrite decide_False in Hrun by (by destruct gaps).
    rewrite Hdry in Hrun. by injection Hrun as <- <-.
Qed.

(** ** The example Supabase adapter *)

(** X17.  Reading through the example adapter does not fail when the query
    resolves: without items it answers with no row and sends no query; a
    query that resolves with an error, or without data, gives no row; and
    every row of the answer is a row of the data whose [locale] is the
    asked one. *)
Theorem supabase_read {Ext : Type} (client : Supabase.SupabaseClient Ext)
    (targetLocale : option string) :
  (∀ s, getCachedTranslations (Supabase.createSupabaseAdapter client) []
          targetLocale s = (Ok [], s))
  ∧ ∀ its s reply s',
      its ≠ [] →
      Supabase.select_in client "content_translations"
        "content_type, content_id, translated_text, source_hash"
        "(content_type,content_id)"
        (map (λ item, (contentType item, contentId item)) its) s = (Ok reply, s') →
      ∃ rows,
        getCachedTranslations (Supabase.createSupabaseAdapter client) its
          targetLocale s = (Ok rows, s')
        ∧ (Supabase.q_error reply ≠ None → rows = [])
        ∧ (Supabase.data reply = None → rows = [])
        ∧ ∀ r, r ∈ rows →
            ∃ x, x ∈ default [] (Supabase.data reply)
              ∧ Supabase.row x = r ∧ Supabase.row_locale x = targetLocale.
Proof.
  split; [done|]. intros its s reply s' Hits Hquery. simpl.
  rewrite decide_False by (by destruct its). rewrite Hquery.
  destruct (Supabase.q_error reply) as [e|].
  - exists []. split; [done|]. split; [done|]. split; [done|]. by intros r Hr%elem_of_nil.
  - eexists. split; [reflexivity|]. split; [done|]. split.
    + by intros ->.
    + intros r (x & -> & Hx)%list_elem_of_fmap.
      apply list_elem_of_In, filter_In in Hx as [Hx Hlocale].
      exists x. split; [by apply list_elem_of_In|]. split; [done|].
      by apply bool_decide_eq_true in Hlocale.
Qed.

(** X18.  The query of the example adapter names four columns, and
    [locale] is not among them.  When the rows of the data have no [locale],
    the answer for any locale is empty: no stored translation is found. *)
Theorem supabase_rows_without_locale {Ext : Type}
    (client : Supabase.SupabaseClient Ext) (its : list TranslationItem)
    (targetLocale : string) (s s' : Ext) (reply : Supabase.QueryReply) :
  Supabase.select_in client "content_translations"
    "content_type, content_id, translated_text, source_hash"
    "(content_type,content_id)"
    (map (λ item, (contentType item, contentId item)) its) s = (Ok reply, s') →
  Forall (λ x, Supabase.row_locale x = None) (default [] (Supabase.data reply)) →
  ∃ s'', getCachedTranslations (Supabase.createSupabaseAdapter client) its
           (Some targetLocale) s = (Ok [], s'').
Proof.
  intros Hquery Hrows. simpl. case_decide; [by eexists|]. rewrite Hquery.
  destruct (Supabase.q_error reply); [by eexists|]. exists s'. do 2 f_equal.
  induction Hrows as [|x xs Hx _ IH]; [done|]. simpl.
  rewrite Hx. by rewrite bool_decide_eq_false_2.
Qed.

Lemma map_set_find (k k' : string) (t : SaveRow) (m : list (string * SaveRow)) :
  List.find (λ p, bool_decide (p.1 = k')) (Supabase.map_set k t m)
  = if decide (k = k') then Some (k, t)
    else List.find (λ p, bool_decide (p.1 = k')) m.
Proof.
  induction m as [|[k0 t0] m IH]; cbn [Supabase.map_set].
  - cbn [List.find fst]. destruct (decide (k = k')).
    + by rewrite bool_decide_eq_true_2.
    + by rewrite bool_decide_eq_false_2.
  - destruct (decide (k = k0)) as [->|Hne]; cbn [List.find fst].
    + destruct (decide (k0 = k')).
      * by rewrite bool_decide_eq_true_2.
      * by rewrite bool_decide_eq_false_2.
    + rewrite IH. destruct (decide (k0 = k')) as [->|Hne'].
      * rewrite bool_decide_eq_true_2 by done. by rewrite decide_False.
      * by rewrite bool_decide_eq_false_2.
Qed.

Lemma map_set_keys (k : string) (t : SaveRow) (m : list (string * SaveRow)) :
  (Supabase.map_set k t m).*1 = if decide (k ∈ m.*1) then m.*1 else m.*1 ++ [k].
Proof.
  induction m as [|[k0 t0] m IH]; cbn [Supabase.map_set].
  - by rewrite decide_False by apply not_elem_of_nil.
  - destruct (decide (k = k0)) as [->|Hne]; cbn [fmap list_fmap fst].
    + by rewrite decide_True by left.
    + fold (fmap (M := list) (@fst string SaveRow)). rewrite IH.
      destruct (decide (k ∈ m.*1)) as [Hin|Hnot].
      * by rewrite decide_True by (by right).
      * rewrite decide_False; [done|]. by intros [?|?]%elem_of_cons.
Qed.

Lemma map_set_values (k : string) (t : SaveRow) (m : list (string * SaveRow))
    (p : string * SaveRow) :
  p ∈ Supabase.map_set k t m → p = (k, t) ∨ p ∈ m.
Proof.
  induction m as [|[k0 t0] m IH]; cbn [Supabase.map_set].
  - intros ->%list_elem_of_singleton. by left.
  - destruct (decide (k = k0)).
    + intros [->|?]%elem_of_cons; [by left|right; by right].
    + intros [->|Hp]%elem_of_cons; [right; by left|].
      destruct (IH Hp) as [?|?]; [by left|right; by right].
Qed.

Lemma dedupe_entries (translations : list SaveRow) :
  let m := foldl (λ m t, Supabase.map_set (Supabase.dedupe_key t) t m) [] translations in
  NoDup m.*1
  ∧ Forall (λ p, Supabase.dedupe_key p.2 = p.1 ∧ p.2 ∈ translations) m
  ∧ ∀ k, List.find (λ p, bool_decide (p.1 = k)) m
         = (λ t, (k, t))
             <$> List.find (λ t, bool_decide (Supabase.dedupe_key t = k))
                           (reverse translations).
Proof.
  induction translations as [|t ts IH] using rev_ind.
  - simpl. split; [constructor|]. split; [constructor|done].
  - rewrite foldl_app. cbn [foldl]. cbv zeta in IH |- *.
    destruct IH as (Hnodup & Hkeys & Hfind).
    set (m := foldl _ [] ts) in *. split; [|split].
    + rewrite map_set_keys. case_decide; [done|].
      apply NoDup_app. split; [done|]. split; [|apply NoDup_singleton].
      intros k Hk ->%list_elem_of_singleton. done.
    + apply Forall_forall. intros p Hp. apply map_set_values in Hp as [->|Hp].
      * split; [done|]. apply elem_of_app. right. left.
      * rewrite Forall_forall in Hkeys. destruct (Hkeys p Hp) as [? ?].
        split; [done|]. apply elem_of_app. by left.
    + intros k. rewrite map_set_find, reverse_app.
      change (reverse [t]) with [t]. cbn [app List.find].
      destruct (decide (Supabase.dedupe_key t = k)) as [Hk|Hk].
      * rewrite bool_decide_eq_true_2 by done. by rewrite Hk.
      * rewrite bool_decide_eq_false_2 by done. apply Hfind.
Qed.

(** X19.  The rows the example adapter passes to [upsert] hold each
    deduplication key once; for each key it is the last row of the input
    with that key that is kept, and no row is passed that was not in the
    input. *)
Theorem supabase_dedupe (translations : list SaveRow) :
  NoDup (Supabase.dedupe_key <$> Supabase.uniqueTranslations translations)
  ∧ (∀ t, t ∈ Supabase.uniqueTranslations translations → t ∈ translations)
  ∧ ∀ k, List.find (λ t, bool_decide (Supabase.dedupe_key t = k))
                   (Supabase.uniqueTranslations translations)
         = List.find (λ t, bool_decide (Supabase.dedupe_key t = k))
                     (reverse translations).
Proof.
  destruct (dedupe_entries translations) as (Hnodup & Hkeys & Hfind).
  cbv zeta in *. unfold Supabase.uniqueTranslations.
  set (m := foldl _ [] translations) in *. split; [|split].
  - rewrite <- list_fmap_compose.
    replace ((Supabase.dedupe_key ∘ snd) <$> m) with (m.*1); [done|].
    apply Forall_fmap_ext. eapply Forall_impl; [exact Hkeys|].
    intros p [Hp _]. by rewrite <- Hp.
  - intros t (p & -> & Hp)%list_elem_of_fmap.
    rewrite Forall_forall in Hkeys. by apply Hkeys.
  - intros k.
    assert (List.find (λ t, bool_decide (Supabase.dedupe_key t = k)) m.*2
            = snd <$> List.find (λ p, bool_decide (p.1 = k)) m) as ->.
    { clear Hnodup Hfind. induction m as [|p m' IH]; [done|].
      apply Forall_cons in Hkeys as [[Hp _] Hkeys].
      rewrite fmap_cons. cbn [List.find]. rewrite Hp.
      destruct (bool_decide (p.1 = k)); [done|by apply IH]. }
    rewrite Hfind. by destruct (List.find _ (reverse translations)).
Qed.

(** X20.  For content types and ids without [":"], rows with the same
    deduplication key have the same primary key, so that the example
    adapter drops a row only for a later row of the same primary key. *)
Theorem supabase_dedupe_key_inj (t t' : SaveRow) :
  has_char ":" (sv_content_type t) = false → has_char ":" (sv_content_id t) = false →
  has_char ":" (sv_content_type t') = false → has_char ":" (sv_content_id t') = false →
  Supabase.dedupe_key t = Supabase.dedupe_key t' →
  Mem.row_key t = Mem.row_key t'.
Proof.
  intros Ht Hd Ht' Hd' Heq. unfold Supabase.dedupe_key in Heq.
  apply (app_sep_inj ":"%char) in Heq as [Htype Heq]; [|done..].
  apply (app_sep_inj ":"%char) in Heq as [Hid Hlocale]; [|done..].
  unfold Mem.row_key. by rewrite Htype, Hid, Hlocale.
Qed.

Lemma batch_loop_store_fails {Ext : Type} (db : DatabaseAdapter Ext)
    (provider : LLMProvider Ext) (its : list TranslationGap)
    (locale' sourceLocale' : string) (batchSize' : nat) (batches : Num) :
  0 < batchSize' →
  ∀ (n j total : nat) (w : World Ext) (s1 s2 s3 : Ext)
    (translations : list string) (e : string),
    (j + n) * batchSize' < length its →
    saved_through db provider its locale' sourceLocale' batchSize' n j (ext w)
    = Some s1 →
    translateBatch provider
      (map Cli.item_of_gap (nth_batch its batchSize' (j + n))) sourceLocale' locale' s1
    = (Ok translations, s2) →
    saveTranslations db
      (Cli.rows_of_batch locale' (nth_batch its batchSize' (j + n)) translations) s2
    = (Throw e, s3) →
    ∃ w', (∀ fuel, n < fuel →
             Cli.batch_loop db provider fuel its locale' sourceLocale'
               (Z.of_nat batchSize') batches (Z.of_nat (j * batchSize')) total w
             = Some (Throw e, w'))
      ∧ ext w' = s3
      ∧ last (calls w')
        = Some (CallSave (Cli.rows_of_batch locale'
                            (nth_batch its batchSize' (j + n)) translations), false)
      ∧ last (console w')
        = Some (LineBatchFailed (Int (Z.of_nat (j + n + 1))) batches e).
Proof.
  intros Hpos. induction n as [|n IH];
    intros j total w s1 s2 s3 translations e Hlen Hsaved Htranslate Hsave;
    simpl in Hsaved.
  - injection Hsaved as <-. rewrite Nat.add_0_r in *.
    eexists. split.
    { intros [|fuel] Hfuel; [lia|]. rewrite batch_loop_turn by done.
      unfold Cli.translate_one, rethrowing, bind, invoke, print. simpl.
      rewrite Htranslate. simpl. rewrite Hsave. reflexivity. }
    cbn [ext calls console snd fst]. split; [done|].
    rewrite !last_snoc. done.
  - destruct (translateBatch provider _ sourceLocale' locale' (ext w))
      as [[ts|e'] sa] eqn:Hta; [|done].
    destruct (saveTranslations db _ sa) as [[[]|e'] sb] eqn:Hsa; [|done].
    pose proof (translate_one_through db provider locale' sourceLocale' batches
                  (Int (Z.of_nat (j + 1))) _ _ _ _ _ Hta Hsa) as Hone.
    replace (j + Datatypes.S n) with (Datatypes.S j + n) in * by lia.
    match type of Hone with
    | _ = (_, ?w1) =>
        destruct (IH (Datatypes.S j) (total + length ts) w1 s1 s2 s3 translations e
                    Hlen Hsaved Htranslate Hsave) as (w' & Hrun & Hrest)
    end.
    exists w'. split; [|exact Hrest].
    intros [|fuel] Hfuel; [lia|]. rewrite batch_loop_turn by nia.
    rewrite Hone. apply Hrun. lia.
Qed.

(** X21.  A store write that throws ends the run for the locale like a
    provider call that throws: given more turns than batches went through,
    the run ends with the error of the write, the failed write is the last
    call made, the last line printed names the batch that failed, and the
    batches after it are not tried. *)
Theorem store_failure_aborts {Ext : Type} (db : DatabaseAdapter Ext)
    (provider : LLMProvider Ext) (gaps : list TranslationGap)
    (locale' sourceLocale' : string) (batchSize' k : nat) (w : World Ext)
    (s1 s2 s3 : Ext) (translations : list string) (e : string) :
  0 < batchSize' →
  k * batchSize' < length (Cli.itemsForLocale gaps locale') →
  saved_through db provider (Cli.itemsForLocale gaps locale') locale' sourceLocale'
    batchSize' k 0 (ext w) = Some s1 →
  translateBatch provider
    (map Cli.item_of_gap (nth_batch (Cli.itemsForLocale gaps locale') batchSize' k))
    sourceLocale' locale' s1 = (Ok translations, s2) →
  saveTranslations db
    (Cli.rows_of_batch locale'
       (nth_batch (Cli.itemsForLocale gaps locale') batchSize' k) translations) s2
  = (Throw e, s3) →
  ∃ w', (∀ fuel, k < fuel →
           Cli.translateBatch db provider fuel gaps locale' sourceLocale'
             (Z.of_nat batchSize') w = Some (Throw e, w'))
    ∧ ext w' = s3
    ∧ last (calls w')
      = Some (CallSave
                (Cli.rows_of_batch locale'
                   (nth_batch (Cli.itemsForLocale gaps locale') batchSize' k)
                   translations), false)
    ∧ last (console w')
      = Some (LineBatchFailed (Int (Z.of_nat (k + 1)))
                (Int (Z.of_nat (batch_count (Cli.itemsForLocale gaps locale')
                                  batchSize'))) e).
Proof.
  intros Hpos Hlen Hsaved Htranslate Hsave.
  set (its := Cli.itemsForLocale gaps locale') in *.
  destruct (batch_loop_store_fails db provider its locale' sourceLocale' batchSize'
              (ceil_div (Z.of_nat (length its)) (Z.of_nat batchSize')) Hpos
              k 0 0
              {| ext := ext w; calls := calls w;
                 console := console w ++ [LineTranslating locale'];
                 localStorage := localStorage w; now := now w |}
              s1 s2 s3 translations e Hlen Hsaved Htranslate Hsave)
    as (w' & Hrun & Hext & Hcalls & Hconsole).
  exists w'. split; [|split; [done|split; [done|]]].
  - intros fuel Hfuel. unfold Cli.translateBatch. fold its.
    rewrite decide_False by lia. unfold bindP at 1, ended at 1, print at 1.
    by apply Hrun.
  - rewrite Hconsole, ceil_div_batch_count by done. reflexivity.
Qed.

(** ** The further properties on concrete inputs *)

Lemma all_hits_settle_witness :
  ∃ st' w', resume Stale.config (AwaitCached Stale.view "0123456789abcdef")
              initial Stale.world = (st', None, w')
    ∧ isTranslating st' = false.
Proof.
  edestruct (all_hits_settle Stale.config Stale.view "0123456789abcdef" initial
               Stale.world) as (st' & w' & Hrun & Hflag & _).
  - reflexivity.
  - vm_compute. repeat constructor.
  - exists st', w'. split; [exact Hrun|exact Hflag].
Defined.

Lemma cycle_outcomes_witness : isTranslating Switch.settled_kk.1 = false.
Proof.
  destruct (cycle_outcomes Switch.config 3 Switch.view_kk
              (fingerprintView [Switch.item]) initial Switch.settled_kk.1
              Switch.world_kk Switch.settled_kk.2) as [Hflag _].
  - vm_compute. reflexivity.
  - exact Hflag.
Defined.

Lemma settled_view_takes_load_path_witness :
  effect Scenes.view_swapped initial
    (settle Miscount.view (fingerprintView (items Miscount.view)) ∅ initial
       Miscount.world).2
  = (initial, Some (AwaitLoad Scenes.view_swapped),
     (settle Miscount.view (fingerprintView (items Miscount.view)) ∅ initial
        Miscount.world).2).
Proof.
  apply (settled_view_takes_load_path Miscount.view Scenes.view_swapped ∅ initial
           initial Miscount.world).
  - reflexivity.
  - reflexivity.
  - apply perm_swap.
  - vm_compute. discriminate.
  - discriminate.
Defined.

Lemma load_path_only_reads_witness :
  ∃ w', sync Switch.config 1 Switch.view_kk Switch.settled_kk.1 Switch.settled_kk.2
        = Some (setCache
                  (cachedMap (Mem.select (Mem.rows (ext Switch.settled_kk.2))
                                [Switch.item] (Some "kk")))
                  Switch.settled_kk.1, w').
Proof.
  edestruct (load_path_only_reads Switch.config 0 Switch.view_kk Switch.settled_kk.1
               Switch.settled_kk.2) as (w' & Hrun & _).
  - vm_compute. reflexivity.
  - vm_compute. reflexivity.
  - vm_compute. reflexivity.
  - vm_compute. discriminate.
  - discriminate.
  - reflexivity.
  - exists w'. exact Hrun.
Defined.

Lemma load_path_retries_forever_witness :
  sync Outage.config 1000 Switch.view_kk Switch.settled_kk.1 Switch.settled_kk.2 = None.
Proof.
  eapply (load_path_retries_forever Outage.config Switch.view_kk Switch.settled_kk.1
            Switch.settled_kk.2).
  - vm_compute. reflexivity.
  - vm_compute. reflexivity.
  - vm_compute. reflexivity.
  - vm_compute. discriminate.
  - discriminate.
  - intros s. by exists "ECONNREFUSED", s.
Defined.

Lemma translating_item_shows_fallback_witness :
  getTranslation Switch.view_kk Scenes.in_flight "product_title" "1" "Red shoes"
  = "Red shoes".
Proof.
  apply translating_item_shows_fallback. vm_compute. reflexivity.
Defined.

Lemma translated_items_show_their_reply_witness :
  ∃ st' w',
    resume Miscount.config
      (AwaitSave Miscount.view "0123456789abcdef" ∅
         [Miscount.item1; Miscount.item2] ["Qyzyl aiaq kiim"])
      initial Miscount.world = (st', None, w')
    ∧ getTranslation Miscount.view st' "product_title" "1" "Red shoes"
      = "Qyzyl aiaq kiim"
    ∧ getTranslation Miscount.view st' "product_title" "2" "Blue hat" = "Blue hat".
Proof.
  edestruct (translated_items_show_their_reply Miscount.config Miscount.view
               "0123456789abcdef" ∅ [Miscount.item1; Miscount.item2]
               ["Qyzyl aiaq kiim"] initial Miscount.world)
    as (st' & w' & Hrun & Hown & _).
  - apply NoDup_cons. split; [|apply NoDup_singleton].
    intros H%list_elem_of_singleton. discriminate H.
  - vm_compute. discriminate.
  - reflexivity.
  - exists st', w'. split; [exact Hrun|]. split.
    + apply (Hown 0 Miscount.item1). reflexivity.
    + apply (Hown 1 Miscount.item2). reflexivity.
Defined.

Lemma cache_key_inj_witness :
  "product_title" = "product_title" ∧ "1" = "1".
Proof.
  apply (cache_key_inj "product_title" "1" "product_title" "1"); reflexivity.
Defined.

Lemma no_discovery_no_run_witness :
  ∃ e w', Cli.runTranslation (Supabase.createSupabaseAdapter Supabase.table_client)
            Scenes.echo 0 DryRun.config Scenes.options Scenes.table_world
          = Some (Throw e, w')
    ∧ calls w' = [] ∧ console w' = [LineBanner; LineDiscovering].
Proof.
  do 2 eexists. split.
  - apply no_discovery_no_run. reflexivity.
  - split; reflexivity.
Defined.


Lemma batches_cover_witness :
  ∃ r w' new m,
    Cli.translateBatch Mem.store Mem.tagging 3 Abort.gaps "kk" "en" 2 Abort.world
    = Some (r, w')
    ∧ calls w' = calls Abort.world ++ new
    ∧ sent_batches new
      = map (λ j, map Cli.item_of_gap
                    (nth_batch (Cli.itemsForLocale Abort.gaps "kk") 2 j)) (seq 0 m)
    ∧ (is_ok r = true → m = 2).
Proof.
  destruct (batches_cover Mem.store Mem.tagging 3 Abort.gaps "kk" "en" 2 Abort.world)
    as (r & w' & new & m & Hrun & Hcalls & Hsent & _ & Hall & _).
  - lia.
  - vm_compute. lia.
  - exists r, w', new, m. split; [exact Hrun|]. split; [exact Hcalls|].
    split; [exact Hsent|]. intros Hr. rewrite (Hall Hr). vm_compute. reflexivity.
Defined.

Lemma translateBatch_all_through_witness :
  ∃ w', Cli.translateBatch Mem.store Mem.tagging 2 Abort.gaps "kk" "en" 2 Abort.world
        = Some (Ok 3, w').
Proof.
  edestruct (translateBatch_all_through Mem.store Mem.tagging Abort.present
               Abort.gaps "kk" "en" 2 Abort.world) as (w' & Hrun & _).
  - lia.
  - intros batch src tgt s translations s1 [= <- _]. apply length_map.
  - apply Mem_contract.
  - vm_compute. reflexivity.
  - exists w'. apply (Hrun 2). vm_compute. lia.
Defined.

Lemma nothing_discovered_stops_witness :
  ∃ w', Cli.runTranslation Mem.store Mem.tagging 0 Scenes.config_excluding
          Scenes.options DryRun.world = Some (Ok (), w')
    ∧ console w' = [LineBanner; LineDiscovering; LineFound 0; LineNoContent].
Proof.
  eexists. split.
  - eapply (nothing_discovered_stops Mem.store Mem.tagging 0 Scenes.config_excluding
              Scenes.options DryRun.world).
    + reflexivity.
    + reflexivity.
    + vm_compute. repeat constructor.
  - reflexivity.
Defined.

Lemma no_target_locale_no_translation_witness :
  ∃ w', Cli.runTranslation Mem.store Mem.tagging 0 Scenes.config_no_locale
          Scenes.options DryRun.world = Some (Ok (), w')
    ∧ console w'
      = [LineBanner; LineDiscovering; LineFound 2;
         LineTypeCount "product_title" (Times 2);
         LineFindingGaps; LineGaps 0; LineNoGaps].
Proof.
  destruct (no_target_locale_no_translation Mem.store Mem.tagging 0
              Scenes.config_no_locale Scenes.options DryRun.world)
    as (r & w' & Hrun & _ & Hreport).
  - reflexivity.
  - edestruct Hreport as (-> & _ & Hconsole).
    + vm_compute. reflexivity.
    + discriminate.
    + reflexivity.
    + exists w'. split; [exact Hrun|]. rewrite Hconsole. vm_compute. reflexivity.
Defined.

Lemma supabase_read_witness :
  getCachedTranslations (Supabase.createSupabaseAdapter Supabase.failing_client)
    [DryRun.item1] (Some "kk") Scenes.table = (Ok [], Scenes.table).
Proof.
  edestruct (proj2 (supabase_read Supabase.failing_client (Some "kk")) [DryRun.item1]
               Scenes.table) as (rows & Hrun & Herror & _).
  - discriminate.
  - reflexivity.
  - rewrite Hrun. rewrite Herror; [reflexivity|discriminate].
Defined.

Lemma supabase_rows_without_locale_witness :
  ∃ s, getCachedTranslations (Supabase.createSupabaseAdapter Supabase.table_client)
         [DryRun.item1] (Some "kk") Scenes.table = (Ok [], s).
Proof.
  eapply (supabase_rows_without_locale Supabase.table_client [DryRun.item1] "kk"
            Scenes.table).
  - reflexivity.
  - vm_compute. repeat constructor.
Defined.

Lemma supabase_dedupe_key_inj_witness :
  Mem.row_key DryRun.record = Mem.row_key (default DryRun.record (last Scenes.twice)).
Proof.
  apply supabase_dedupe_key_inj; reflexivity.
Defined.

Lemma store_failure_aborts_witness :
  ∃ w', Cli.translateBatch Scenes.read_only_store Mem.tagging 1 Abort.gaps "kk" "en" 2
          Abort.world = Some (Throw "permission denied", w')
    ∧ last (console w') = Some (LineBatchFailed (Int 1) (Int 2) "permission denied").
Proof.
  edestruct (store_failure_aborts Scenes.read_only_store Mem.tagging Abort.gaps
               "kk" "en" 2 0 Abort.world) as (w' & Hrun & _ & _ & Hconsole).
  - lia.
  - vm_compute. lia.
  - reflexivity.
  - vm_compute. reflexivity.
  - vm_compute. reflexivity.
  - exists w'. split; [apply (Hrun 1); lia|]. rewrite Hconsole. vm_compute. reflexivity.
Defined.

Lemma dry_run_frame_witness :
  ∃ w', Cli.runTranslation Mem.store Mem.tagging 0 DryRun.config DryRun.options
          DryRun.world = Some (Ok (), w')
    ∧ ext w' = DryRun.store.
Proof.
  destruct (dry_run_frame Mem.store Mem.tagging 0 DryRun.config DryRun.options
              DryRun.world eq_refl) as (r & w' & Hrun & _ & Hstore & _ & Hlines).
  destruct (Hlines FullRun.discovered.1 FullRun.discovered.2
              FullRun.gaps_found.1 FullRun.gaps_found.2) as [-> _].
  - vm_compute. reflexivity.
  - vm_compute. discriminate.
  - vm_compute. reflexivity.
  - vm_compute. discriminate.
  - exists w'. split; [exact Hrun|]. apply Hstore.
    split; [done|]. by intros discover [= <-].
Defined.

Lemma batch_count_le (its : list TranslationGap) (batchSize' : nat) :
  0 < batchSize' → (batch_count its batchSize' ≤ length its)%nat.
Proof.
  intros Hpos.
  destruct (decide (length its < batch_count its batchSize')) as [Hlt|]; [|lia].
  apply batch_count_spec in Hlt; [nia|done].
Qed.

Lemma itemsForLocale_length (gaps : list TranslationGap) (l : string) :
  (length (Cli.itemsForLocale gaps l) ≤ length gaps)%nat.
Proof.
  unfold Cli.itemsForLocale. induction gaps as [|g gaps IH]; simpl; [done|].
  destruct (Cli.includes (missingLocales g) l); simpl; lia.
Qed.

Lemma translate_locales_through {Ext : Type} (db : DatabaseAdapter Ext)
    (provider : LLMProvider Ext) (gaps : list TranslationGap)
    (sourceLocale' : string) (batchSize' : nat) :
  0 < batchSize' →
  (∀ batch src tgt s translations s1,
     translateBatch provider batch src tgt s = (Ok translations, s1) →
     length translations = length batch) →
  ∀ (targets : list string) (total : nat) (w : World Ext) (s' : Ext),
    locales_through db provider gaps sourceLocale' batchSize' targets (ext w) = Some s' →
    ∃ w', ext w' = s'
      ∧ ∀ fuel, (length gaps ≤ fuel)%nat →
          Cli.translate_locales db provider fuel gaps sourceLocale'
            (Z.of_nat batchSize') targets total w
          = Some (Ok (total + sum_list (map (λ l, length (Cli.itemsForLocale gaps l))
                                          targets)), w').
Proof.
  intros Hpos Hcount. induction targets as [|l rest IH]; intros total w s' Hthrough;
    simpl in Hthrough.
  - injection Hthrough as <-. exists w. split; [done|]. intros fuel _.
    simpl. by rewrite Nat.add_0_r.
  - destruct (saved_through db provider (Cli.itemsForLocale gaps l) l sourceLocale'
                batchSize' _ 0 (ext w)) as [s1|] eqn:Hsaved; [|done].
    destruct (translateBatch_through db provider gaps l sourceLocale' batchSize' w s1
                Hpos Hcount Hsaved) as (w1 & Hext & Hrun). subst s1.
    destruct (IH (total + length (Cli.itemsForLocale gaps l)) w1 s' Hthrough)
      as (w' & Hext' & Hrest).
    exists w'. split; [done|]. intros fuel Hfuel.
    cbn [Cli.translate_locales]. unfold bindP at 1. rewrite Hrun.
    + rewrite (Hrest fuel Hfuel). do 3 f_equal. simpl. lia.
    + etrans; [by apply batch_count_le|].
      etrans; [apply itemsForLocale_length|done].
Qed.

(** X22.  Let a run not be dry, the batch size of the configuration be
    absent, zero or above zero, content and gaps be found, every call return
    and the provider answer every batch with as many strings as items.  The
    run then goes through the target locales in their order, each in batches
    of [config.batchSize || 20] with [config.sourceLocale || 'en'] as the
    source; given as many turns as there are gaps it returns; and the last
    lines it prints are those of the summary, with the sum, over the target
    locales, of the gaps of each as the total. *)
Theorem full_run_summary {Ext : Type} (db : DatabaseAdapter Ext)
    (provider : LLMProvider Ext) (config : Cli.AudarCLIConfig)
    (options : Cli.CLIOptions) (w w1 w2 : World Ext)
    (content : list DiscoveredContent) (gaps : list TranslationGap) (s' : Ext) :
  Cli.dryRun options = false →
  (0 < Cli.effective_batchSize config)%Z →
  (∀ batch src tgt s translations s1,
     translateBatch provider batch src tgt s = (Ok translations, s1) →
     length translations = length batch) →
  Cli.discoverContent db config (print LineBanner w).2 = (Ok content, w1) →
  content ≠ [] →
  Cli.findTranslationGaps db content (Cli.locales config) (Cli.opt_locale options) w1
  = (Ok gaps, w2) → gaps ≠ [] →
  let targets := Cli.target_locales (Cli.locales config) (Cli.opt_locale options) in
  locales_through db provider gaps (js_or (Cli.sourceLocale config) "en")
    (Z.to_nat (Cli.effective_batchSize config)) targets (ext w2) = Some s' →
  ∃ w', (∀ fuel, (length gaps ≤ fuel)%nat →
           Cli.runTranslation db provider fuel config options w = Some (Ok (), w'))
    ∧ ext w' = s'
    ∧ ∃ before,
        console w'
        = before ++
          [LineComplete; LineSummaryHead;
           LineTotal (sum_list (map (λ l, length (Cli.itemsForLocale gaps l)) targets));
           LineDuration; LineLocales targets;
           LineNextSteps; LineNextDeploy; LineNextLazy].
Proof.
  intros Hdry Hsize Hcount Hdiscover Hcontent Hfind Hgaps targets Hthrough.
  destruct (translate_locales_through db provider gaps
              (js_or (Cli.sourceLocale config) "en")
              (Z.to_nat (Cli.effective_batchSize config)) ltac:(lia)
              Hcount targets 0 w2 s' Hthrough)
    as (w3 & Hext & Hrun).
  rewrite Z2Nat.id in Hrun by lia.
  eexists. split; [|split].
  - intros fuel Hfuel. rewrite runTranslation_eq, Hdiscover.
    rewrite decide_False by (by destruct content). rewrite Hfind. cbv zeta.
    rewrite decide_False by (by destruct gaps). rewrite Hdry.
    fold targets. rewrite (Hrun fuel Hfuel). reflexivity.
  - exact Hext.
  - cbn [console]. by exists (console w3).
Qed.

Lemma full_run_summary_witness :
  ∃ w', Cli.runTranslation Mem.store Mem.tagging 1 DryRun.config Scenes.options
          DryRun.world = Some (Ok (), w')
    ∧ Mem.rows (ext w') !! ("product_title", "2", "de")
      = Some {| sv_content_type := "product_title"; sv_content_id := "2";
                sv_locale := "de"; sv_original_text := "Blue hat";
                sv_translated_text := Some "[de] Blue hat";
                sv_source_hash := batch_source_hash "Blue hat" |}.
Proof.
  edestruct (full_run_summary Mem.store Mem.tagging DryRun.config Scenes.options
               DryRun.world FullRun.discovered.2 FullRun.gaps_found.2
               FullRun.discovered.1 FullRun.gaps_found.1)
    as (w' & Hrun & Hext & _).
  - reflexivity.
  - reflexivity.
  - intros batch src tgt s translations s1 [= <- _]. apply length_map.
  - vm_compute. reflexivity.
  - vm_compute. discriminate.
  - vm_compute. reflexivity.
  - vm_compute. discriminate.
  - vm_compute. reflexivity.
  - exists w'. split; [apply (Hrun 1); vm_compute; lia|].
    rewrite Hext. vm_compute. reflexivity.
Defined.

(** With a batch size below zero the loop does not move forward: as long
    as no call throws it takes another turn. *)
Lemma batch_loop_backwards {Ext : Type} (db : DatabaseAdapter Ext)
    (provider : LLMProvider Ext) (its : list TranslationGap)
    (locale' sourceLocale' : string) (batchSize' : Z) (batches : Num) :
  (batchSize' < 0)%Z → its ≠ [] →
  (∀ batch src tgt s, is_ok (translateBatch provider batch src tgt s).1 = true) →
  (∀ rows s, is_ok (saveTranslations db rows s).1 = true) →
  ∀ (fuel : nat) (i : Z) (total : nat) (w : World Ext),
    (i ≤ 0)%Z →
    Cli.batch_loop db provider fuel its locale' sourceLocale' batchSize' batches
      i total w = None.
Proof.
  intros Hneg Hits Hprovider Hstore. induction fuel as [|fuel IH];
    intros i total w Hi; cbn [Cli.batch_loop];
    (rewrite decide_True by (destruct its; [done|simpl; lia])); [done|].
  unfold bindP, ended.
  unfold Cli.translate_one, rethrowing, bind, invoke, print, ret.
  cbn [ext calls console localStorage now fst snd].
  set (batch := slice i (i + batchSize') its).
  pose proof (Hprovider (map Cli.item_of_gap batch) sourceLocale' locale' (ext w))
    as Hp.
  destruct (translateBatch provider _ sourceLocale' locale' (ext w))
    as [[translations|e] s1]; [|done].
  cbn [ext calls console localStorage now fst snd].
  pose proof (Hstore (Cli.rows_of_batch locale' batch translations) s1) as Hs.
  destruct (saveTranslations db _ s1) as [[[]|e] s2]; [|done].
  cbn [ext calls console localStorage now fst snd].
  apply IH. lia.
Qed.

(** The gaps that were found are all gaps of the first target locale. *)
Lemma itemsForLocale_first (cached : list CachedRow) (l : string)
    (rest : list string) (content : list DiscoveredContent) :
  Cli.itemsForLocale (omap (Cli.gap_of cached (l :: rest)) content) l
  = omap (Cli.gap_of cached (l :: rest)) content.
Proof.
  unfold Cli.itemsForLocale, Cli.includes.
  induction content as [|item content IH]; [done|].
  cbn [omap list_omap]. rewrite gap_of_spec.
  destruct (_ && _); [|apply IH].
  cbn [List.filter missingLocales]. rewrite bool_decide_eq_true_2 by left.
  f_equal. apply IH.
Qed.

(** X24.  With a batch size below zero, which [config.batchSize || 20]
    keeps, a run that is not dry and finds gaps does not return as long as
    no call throws, whatever turns it is given. *)
Theorem negative_batchSize_never_returns {Ext : Type} (db : DatabaseAdapter Ext)
    (provider : LLMProvider Ext) (config : Cli.AudarCLIConfig)
    (options : Cli.CLIOptions) (w w1 w2 : World Ext)
    (content : list DiscoveredContent) (gaps : list TranslationGap) :
  Cli.dryRun options = false →
  (Cli.effective_batchSize config < 0)%Z →
  (∀ batch src tgt s, is_ok (translateBatch provider batch src tgt s).1 = true) →
  (∀ rows s, is_ok (saveTranslations db rows s).1 = true) →
  Cli.discoverContent db config (print LineBanner w).2 = (Ok content, w1) →
  content ≠ [] →
  Cli.findTranslationGaps db content (Cli.locales config) (Cli.opt_locale options) w1
  = (Ok gaps, w2) → gaps ≠ [] →
  ∀ fuel, Cli.runTranslation db provider fuel config options w = None.
Proof.
  intros Hdry Hneg Hprovider Hstore Hdiscover Hcontent Hfind Hgaps fuel.
  rewrite runTranslation_eq, Hdiscover.
  rewrite decide_False by (by destruct content). rewrite Hfind. cbv zeta.
  rewrite decide_False by (by destruct gaps). rewrite Hdry.
  set (targets := Cli.target_locales (Cli.locales config) (Cli.opt_locale options)).
  assert (∃ l rest, targets = l :: rest ∧ Cli.itemsForLocale gaps l = gaps)
    as (l & rest & Htargets & Hitems).
  { rewrite findTranslationGaps_eq in Hfind. fold targets in Hfind.
    destruct (getCachedTranslations db _ (head targets) (ext w1))
      as [[cached|e] s]; [|done].
    cbv zeta in Hfind. injection Hfind as Hfind _.
    destruct targets as [|l rest].
    { rewrite no_target_no_gap in Hfind. by subst gaps. }
    exists l, rest. split; [done|]. subst gaps. apply itemsForLocale_first. }
  rewrite Htargets. cbn [Cli.translate_locales]. unfold bindP at 1.
  unfold Cli.translateBatch. rewrite Hitems.
  rewrite decide_False by (by destruct gaps).
  unfold bindP at 1, ended at 1, print at 1.
  by rewrite batch_loop_backwards.
Qed.

Lemma negative_batchSize_never_returns_witness :
  Cli.runTranslation Mem.store Mem.tagging 1000 Scenes.config_negative Scenes.options
    DryRun.world = None.
Proof.
  apply (negative_batchSize_never_returns Mem.store Mem.tagging Scenes.config_negative
           Scenes.options DryRun.world FullRun.discovered.2 FullRun.gaps_found.2
           FullRun.discovered.1 FullRun.gaps_found.1).
  - reflexivity.
  - reflexivity.
  - reflexivity.
  - reflexivity.
  - vm_compute. reflexivity.
  - vm_compute. discriminate.
  - vm_compute. reflexivity.
  - vm_compute. discriminate.
Defined.
